(** * dndj music playback: a shallow embedding of [src/music.py]

    The development follows the Python module top down: exceptions and the
    pieces of the Python runtime the module leans on (sequence indexing,
    [time.strptime], binary64 arithmetic, [os.path.join], [random.shuffle]),
    then the configuration classes [Track], [TrackList], [MusicGroup], then
    [MusicManager] with its three coroutines, then the asyncio event loop that
    interleaves them, and finally the properties. *)

From Stdlib Require Import ZArith Lia Ascii String SpecFloat Permutation.
From stdpp Require Import base tactics option list list_monad numbers strings pretty.

Local Open Scope Z_scope.

(** ** Python runtime *)

(** The built-in exceptions the module can raise. [asyncio.CancelledError] is
    the one the event loop throws into a task at its suspension point. *)
Inductive exn :=
| IndexError | ValueError | ZeroDivisionError | OverflowError
| AttributeError | CancelledError.

Global Instance exn_eq_dec : EqDecision exn.
Proof. solve_decision. Defined.

(** [seq[i]] on a tuple or list: indices [0 .. n-1] count from the front,
    [-n .. -1] from the back, anything else raises [IndexError]. *)
Definition py_getitem {A} (seq : list A) (i : Z) : exn + A :=
  let n := Z.of_nat (length seq) in
  let j := if i <? 0 then i + n else i in
  if (j <? 0) || (n <=? j) then inl IndexError
  else match seq !! Z.to_nat j with
       | Some x => inr x
       | None => inl IndexError
       end.

(** *** [time.strptime(data_string, "%H:%M:%S")]

    CPython turns the format into the regular expression
    [(?P<H>2[0-3]|[0-1]\d|\d):(?P<M>[0-5]\d|\d):(?P<S>6[0-1]|[0-5]\d|\d)],
    matches it at the start of the data with backtracking, and rejects the
    data when nothing matches or when the match stops before the end. The
    matcher below returns, for each directive, every way it can match in the
    order the regex engine would try them. Strings are ASCII here, so [\d] is
    one of '0' .. '9'. *)
Record struct_time := { tm_hour : Z; tm_min : Z; tm_sec : Z }.

Definition digit_val (c : ascii) : option Z :=
  let n := Z.of_N (N_of_ascii c) in
  if (48 <=? n) && (n <=? 57) then Some (n - 48) else None.

(** one alternative made of two character classes, [[lo1-hi1][lo2-hi2]] *)
Definition re_two (lo1 hi1 lo2 hi2 : Z) (s : string) : list (Z * string) :=
  match s with
  | String a (String b rest) =>
      match digit_val a, digit_val b with
      | Some x, Some y =>
          if (lo1 <=? x) && (x <=? hi1) && (lo2 <=? y) && (y <=? hi2)
          then [(10 * x + y, rest)] else []
      | _, _ => []
      end
  | _ => []
  end.

(** the alternative [\d] *)
Definition re_one (s : string) : list (Z * string) :=
  match s with
  | String a rest =>
      match digit_val a with Some x => [(x, rest)] | None => [] end
  | _ => []
  end.

Definition re_H (s : string) := re_two 2 2 0 3 s ++ re_two 0 1 0 9 s ++ re_one s.
Definition re_M (s : string) := re_two 0 5 0 9 s ++ re_one s.
Definition re_S (s : string) := re_two 6 6 0 1 s ++ re_two 0 5 0 9 s ++ re_one s.

Definition re_colon (s : string) : list string :=
  match s with
  | String c rest => if Ascii.eqb c ":" then [rest] else []
  | _ => []
  end.

(** all matches of the whole pattern, best first, each with the unread rest *)
Definition re_HMS (s : string) : list (struct_time * string) :=
  '(h, r1) ← re_H s; r2 ← re_colon r1;
  '(m, r3) ← re_M r2; r4 ← re_colon r3;
  '(sec, r5) ← re_S r4;
  [({| tm_hour := h; tm_min := m; tm_sec := sec |}, r5)].

Definition strptime_HMS (data_string : string) : exn + struct_time :=
  match re_HMS data_string with
  | [] => inl ValueError                  (* does not match format *)
  | (tm, rest) :: _ =>
      match rest with
      | EmptyString => inr tm
      | _ => inl ValueError               (* unconverted data remains *)
      end
  end.

(** *** [os.path.join(a, b)] (posixpath) *)
Definition startswith_sep (s : string) : bool :=
  match s with String c _ => Ascii.eqb c "/" | _ => false end.

Fixpoint endswith_sep (s : string) : bool :=
  match s with
  | EmptyString => false
  | String c EmptyString => Ascii.eqb c "/"
  | String _ rest => endswith_sep rest
  end.

Definition path_join (a b : string) : string :=
  if startswith_sep b then b
  else if match a with EmptyString => true | _ => endswith_sep a end then a +:+ b
  else a +:+ "/" +:+ b.

(** *** [float]: IEEE 754 binary64, round to nearest even

    [SpecFloat] is the Standard Library's executable specification of the
    format; [int / int], [int * float], [int - float] and [int(float)] below
    are Python's operators on it. *)
Definition float := spec_float.
Definition prec : Z := 53.
Definition emax : Z := 1024.

(** an integer as an unrounded mantissa with exponent 0 *)
Definition int_as_float (z : Z) : float :=
  match z with
  | Z0 => S754_zero false
  | Zpos m => S754_finite false m 0
  | Zneg m => S754_finite true m 0
  end.

Definition checked (f : float) : exn + float :=
  match f with
  | S754_infinity _ => inl OverflowError
  | _ => inr f
  end.

(** [float(z)] *)
Definition float_of_int (z : Z) : exn + float :=
  checked (binary_normalize prec emax z 0 false).

(** [a / b] on two ints: the correctly rounded quotient *)
Definition py_truediv (a b : Z) : exn + float :=
  if b =? 0 then inl ZeroDivisionError
  else checked (SFdiv prec emax (int_as_float a) (int_as_float b)).

(** a literal such as [0.01]: the float nearest to [num / den] *)
Definition float_literal (num den : Z) : float :=
  SFdiv prec emax (int_as_float num) (int_as_float den).

(** [a * x] with [a] an int and [x] a float *)
Definition py_mul_int_float (a : Z) (x : float) : exn + float :=
  match float_of_int a with
  | inl e => inl e
  | inr fa => inr (SFmul prec emax fa x)
  end.

(** [a - x] with [a] an int and [x] a float *)
Definition py_sub_int_float (a : Z) (x : float) : exn + float :=
  match float_of_int a with
  | inl e => inl e
  | inr fa => inr (SFsub prec emax fa x)
  end.

(** [int(x)]: truncation toward zero *)
Definition py_int (x : float) : exn + Z :=
  match x with
  | S754_zero _ => inr 0
  | S754_finite s m e =>
      let a := match e with
               | Z0 => Zpos m
               | Zpos _ => Zpos m * 2 ^ e
               | Zneg _ => Zpos m / 2 ^ (- e)
               end in
      inr (if s then - a else a)
  | S754_infinity _ => inl OverflowError
  | S754_nan => inl ValueError
  end.

(** *** [random.shuffle(x)]

    [for i in reversed(range(1, len(x))): j = randbelow(i + 1);
     x[i], x[j] = x[j], x[i]]. The random source is a parameter; whatever it
    answers is reduced below the bound it was asked for. *)
Definition swap {A} (x : list A) (i j : nat) : list A :=
  match x !! i, x !! j with
  | Some xi, Some xj => <[j := xi]> (<[i := xj]> x)
  | _, _ => x
  end.

Fixpoint shuffle_from {A} (rnd : nat -> nat) (i : nat) (x : list A) : list A :=
  match i with
  | O => x
  | S i' => shuffle_from rnd i' (swap x i (rnd (S i) mod S i)%nat)
  end.

Definition random_shuffle {A} (rnd : nat -> nat) (x : list A) : list A :=
  shuffle_from rnd (length x - 1) x.

(** *** [sorted(seq, key=...)] on string keys: stable, ascending *)
Fixpoint insert_by_key {A} (key : A -> string) (a : A) (l : list A) : list A :=
  match l with
  | [] => [a]
  | b :: l' => if String.ltb (key b) (key a) then b :: insert_by_key key a l'
               else a :: b :: l'
  end.

Definition sorted {A} (key : A -> string) (l : list A) : list A :=
  foldr (insert_by_key key) [] l.

(** *** raising and propagating exceptions in straight-line code *)
Global Instance exn_ret : MRet (sum exn) := λ A, inr.
Global Instance exn_bind : MBind (sum exn) := λ A B k x,
  match x with
  | inl e => inl e
  | inr a => k a
  end.

(** a list comprehension whose element expression may raise *)
Fixpoint comprehension {A B} (f : A -> exn + B) (l : list A) : exn + list B :=
  match l with
  | [] => inr []
  | a :: l' => b ← f a; bs ← comprehension f l'; inr (b :: bs)
  end.

(** ** The configuration classes *)

Module Track.

(** [config: Union[str, Dict]]; the dict has the key "file" and may have
    "start_at" and "end_at". *)
Inductive config :=
| Str (file : string)
| Dict (file : string) (start_at end_at : option string).

Record t := { file : string; start_at : option Z; end_at : option Z }.

Definition _convert_formatted_time_to_ms (formatted_time : string) : exn + Z :=
  time_struct ← strptime_HMS formatted_time;
  inr ((tm_sec time_struct + tm_min time_struct * 60
        + tm_hour time_struct * 3600) * 1000).

Definition convert_optional (o : option string) : exn + option Z :=
  match o with
  | Some s => ms ← _convert_formatted_time_to_ms s; inr (Some ms)
  | None => inr None
  end.

Definition __init__ (c : config) : exn + t :=
  let '(file, start_at, end_at) :=
    match c with
    | Str file => (file, None, None)
    | Dict file start_at end_at => (file, start_at, end_at)
    end in
  start_ms ← convert_optional start_at;
  end_ms ← convert_optional end_at;
  inr {| file := file; start_at := start_ms; end_at := end_ms |}.

End Track.

Module TrackList.

Record config := {
  c_name : string;
  c_directory : option string;
  c_loop : option bool;
  c_shuffle : option bool;
  c_tracks : list Track.config
}.

Record t := {
  name : string;
  directory : option string;
  loop : bool;
  shuffle : bool;
  tracks : list Track.t          (* a tuple: never updated in place *)
}.

Definition __init__ (c : config) : exn + t :=
  tracks ← comprehension Track.__init__ (c_tracks c);
  inr {| name := c_name c;
         directory := c_directory c;
         loop := default true (c_loop c);
         shuffle := default true (c_shuffle c);
         tracks := tracks |}.

End TrackList.

Module MusicGroup.

Record config := {
  c_name : string;
  c_directory : option string;
  c_sort : option bool;
  c_track_lists : list TrackList.config
}.

Record t := {
  name : string;
  directory : option string;
  track_lists : list TrackList.t
}.

Definition __init__ (c : config) : exn + t :=
  track_lists ← comprehension TrackList.__init__ (c_track_lists c);
  let track_lists :=
    if default true (c_sort c) then sorted TrackList.name track_lists
    else track_lists in
  inr {| name := c_name c;
         directory := c_directory c;
         track_lists := track_lists |}.

End MusicGroup.

(** ** The outside world: media engine, file system, event loop *)

(** A [vlc.MediaPlayer] object is known by the order in which it was
    created. *)
Definition player := nat.

Inductive level := Debug | Info | Error.

(** What the program does to the outside, in the order it does it. *)
Inductive Event :=
| NewPlayer (p : player) (file_path : string)   (* vlc.MediaPlayer(vlc.Instance(), file_path) *)
| SetVolume (p : player) (v : Z)                (* p.audio_set_volume(v) *)
| GetVolume (p : player) (v : Z)                (* p.audio_get_volume() answered v *)
| Play (p : player) (success : Z)               (* p.play() answered success *)
| SetTime (p : player) (ms : Z)                 (* p.set_time(ms) *)
| IsPlaying (p : player) (b : bool)             (* p.is_playing() answered b *)
| GetTime (p : player) (ms : Z)                 (* p.get_time() answered ms *)
| Stop (p : player)                             (* p.stop() *)
| Sleep (seconds : float)                       (* await asyncio.sleep(seconds) *)
| Log (l : level) (message : string).

(** What the outside answers during one uninterrupted run of a coroutine,
    that is from one suspension point to the next. Each question is asked at
    most once in such a run. *)
Record Env := {
  isfile : string -> bool;          (* os.path.isfile *)
  play_result : Z;                  (* MediaPlayer.play(): -1 on failure *)
  is_playing : bool;                (* MediaPlayer.is_playing() *)
  get_time : Z;                     (* MediaPlayer.get_time() *)
  audio_get_volume : Z;             (* MediaPlayer.audio_get_volume() *)
  randbelow : nat -> nat            (* the random source of random.shuffle *)
}.

(** How the event loop resumes a suspended coroutine: [coro.send(None)], or
    [coro.throw(CancelledError)] after [task.cancel()]. *)
Inductive signal := Send | Throw.

(** How a piece of coroutine code ends. *)
Inductive result (F A : Type) :=
| Val (a : A)            (* it ran to its end *)
| Raise (e : exn)        (* it raised *)
| Await (frame : F)      (* it reached an await and is suspended there *)
| Spin.                  (* it loops forever without reaching an await *)
Arguments Val {F A} a.
Arguments Raise {F A} e.
Arguments Await {F A} frame.
Arguments Spin {F A}.

(** What the event loop knows of a coroutine between two runs. *)
Inductive status (F : Type) :=
| Suspended (frame : F)
| Finished (r : exn + unit)
| Spinning.
Arguments Suspended {F} frame.
Arguments Finished {F} r.
Arguments Spinning {F}.

Definition status_of {F} (r : result F unit) : status F :=
  match r with
  | Val _ => Finished (inr tt)
  | Raise e => Finished (inl e)
  | Await fr => Suspended fr
  | Spin => Spinning
  end.

Definition done {F} (st : status F) : bool :=
  match st with Finished _ => true | _ => false end.

(** The locals of [set_volume] while it is suspended at line 284; [f_i] is
    the loop index of the iteration that is sleeping. *)
Record Fade := {
  f_volume : Z;
  f_set_global : bool;
  f_n_steps : Z;
  f_seconds : Z;
  f_current_volume : Z;
  f_step_size : float;
  f_i : Z
}.

(** The suspension points of [_play_track_list]. [tracks] is what the
    [for] loop over the working copy has not reached yet, [track] the loop
    variable. *)
Inductive Frame :=
| AtStart                                                   (* created, not run yet *)
| AtSettle (tracks : list Track.t) (track : Track.t)        (* line 226 *)
| AtFadeIn (tracks : list Track.t) (track : Track.t) (f : Fade)   (* line 227, in set_volume *)
| AtPoll (tracks : list Track.t) (track : Track.t)          (* line 232 *)
| AtFadeOut (tracks : list Track.t) (track : Track.t) (f : Fade). (* line 235, in set_volume *)

(** An [asyncio.Task] running [_play_track_list(group, track_list)]. *)
Record Task := {
  t_group : MusicGroup.t;
  t_track_list : TrackList.t;
  t_status : status Frame;
  t_must_cancel : bool              (* cancel() was called, not yet delivered *)
}.

(** [CurrentlyPlaying = namedtuple(..., ["group", "track_list", "task"])];
    the task is known by its position in the loop's task table. *)
Record CurrentlyPlaying := {
  group : MusicGroup.t;
  track_list : TrackList.t;
  task : nat
}.

(** ** MusicManager *)

Module MusicManager.

Record config := {
  c_volume : Z;
  c_directory : option string;
  c_sort : option bool;
  c_groups : list MusicGroup.config
}.

Record t := {
  volume : Z;
  directory : option string;
  groups : list MusicGroup.t;
  currently_playing : option CurrentlyPlaying;
  current_player : option player
}.

Definition SLEEP_TIME : float := float_literal 1 100.

Definition __init__ (c : config) : exn + t :=
  groups ← comprehension MusicGroup.__init__ (c_groups c);
  let groups :=
    if default true (c_sort c) then sorted MusicGroup.name groups
    else groups in
  inr {| volume := c_volume c;
         directory := c_directory c;
         groups := groups;
         currently_playing := None;
         current_player := None |}.

(** attribute assignments [self.x = v] *)
Definition set_volume_attr (v : Z) (self : t) : t :=
  {| volume := v; directory := directory self; groups := groups self;
     currently_playing := currently_playing self;
     current_player := current_player self |}.

Definition set_currently_playing (v : option CurrentlyPlaying) (self : t) : t :=
  {| volume := volume self; directory := directory self; groups := groups self;
     currently_playing := v;
     current_player := current_player self |}.

Definition set_current_player (v : option player) (self : t) : t :=
  {| volume := volume self; directory := directory self; groups := groups self;
     currently_playing := currently_playing self;
     current_player := v |}.

(** lines 248-263 *)
Definition _get_track_list_root_directory
    (self : t) (group : MusicGroup.t) (track_list : TrackList.t) : exn + string :=
  let root_directory :=
    match TrackList.directory track_list with
    | Some d => Some d
    | None => MusicGroup.directory group
    end in
  let root_directory :=
    match root_directory with
    | Some d => Some d
    | None => directory self
    end in
  match root_directory with
  | None => inl ValueError
  | Some d => inr d
  end.

(** *** Coroutines

    Everything a coroutine can touch: the manager object, the event loop's
    tasks, the media engine (how many players exist) and the record of
    what was done to the outside. *)
Record State := {
  self : t;
  tasks : list Task;
  players : nat;
  trace : list Event
}.

(** A piece of coroutine code: it runs without interruption from where it
    is entered to its end, to an exception or to the next await. [F] is the
    type of the frames it can be suspended with. *)
Definition coro (F A : Type) : Type := Env -> State -> State * result F A.

Global Instance coro_ret {F} : MRet (coro F) := λ A a _ s, (s, Val a).
Global Instance coro_bind {F} : MBind (coro F) := λ A B k m env s,
  match m env s with
  | (s', Val a) => k a env s'
  | (s', Raise e) => (s', Raise e)
  | (s', Await fr) => (s', Await fr)
  | (s', Spin) => (s', Spin)
  end.

Definition raise {F A} (e : exn) : coro F A := λ _ s, (s, Raise e).
Definition await {F} (fr : F) : coro F unit := λ _ s, (s, Await fr).
Definition spin {F A} : coro F A := λ _ s, (s, Spin).
Definition ask {F} : coro F Env := λ env s, (s, Val env).
Definition get_self {F} : coro F t := λ _ s, (s, Val (self s)).

Definition lift {F A} (x : exn + A) : coro F A :=
  match x with
  | inl e => raise e
  | inr a => mret a
  end.

Definition assign {F} (f : t -> t) : coro F unit := λ _ s,
  ({| self := f (self s); tasks := tasks s; players := players s;
      trace := trace s |}, Val tt).

Definition emit {F} (ev : Event) : coro F unit := λ _ s,
  ({| self := self s; tasks := tasks s; players := players s;
      trace := trace s ++ [ev] |}, Val tt).

(** [await asyncio.sleep(d)], to be resumed with frame [fr] *)
Definition sleep {F} (seconds : float) (fr : F) : coro F unit :=
  emit (Sleep seconds);; await fr.

(** [try: m except E: handler] *)
Definition except {F A} (m : coro F A) (E : exn) (handler : coro F A) : coro F A :=
  λ env s,
  match m env s with
  | (s', Raise e) => if decide (e = E) then handler env s' else (s', Raise e)
  | r => r
  end.

(** [await m] where [m] is another coroutine of this module: while [m] is
    suspended so is the caller, with [m]'s frame inside its own. *)
Definition await_coro {F G A} (inside : G -> F) (m : coro G A) : coro F A :=
  λ env s,
  match m env s with
  | (s', Val a) => (s', Val a)
  | (s', Raise e) => (s', Raise e)
  | (s', Await fr) => (s', Await (inside fr))
  | (s', Spin) => (s', Spin)
  end.

(** [self.current_player.<method>]: the attribute lookup fails on [None] *)
Definition the_player {F} : coro F player :=
  self ← get_self;
  match current_player self with
  | Some p => mret p
  | None => raise AttributeError
  end.

(** [vlc.MediaPlayer(vlc.Instance(), file_path)] *)
Definition new_player {F} (file_path : string) : coro F player := λ _ s,
  let p := players s in
  ({| self := self s; tasks := tasks s; players := S p;
      trace := trace s ++ [NewPlayer p file_path] |}, Val p).

(** [loop.create_task(self._play_track_list(group, track_list))] *)
Definition create_task {F} (group : MusicGroup.t) (track_list : TrackList.t)
    : coro F nat := λ _ s,
  let i := length (tasks s) in
  ({| self := self s;
      tasks := tasks s ++ [{| t_group := group; t_track_list := track_list;
                              t_status := Suspended AtStart;
                              t_must_cancel := false |}];
      players := players s; trace := trace s |}, Val i).

(** [task.cancel()]: nothing on a finished task; otherwise the task's next
    run starts with [CancelledError] thrown at its suspension point. *)
Definition request_cancel (tk : Task) : Task :=
  if done (t_status tk) then tk
  else {| t_group := t_group tk; t_track_list := t_track_list tk;
          t_status := t_status tk; t_must_cancel := true |}.

Definition task_cancel {F} (i : nat) : coro F unit := λ _ s,
  ({| self := self s;
      tasks := match tasks s !! i with
               | Some tk => <[i := request_cancel tk]> (tasks s)
               | None => tasks s
               end;
      players := players s; trace := trace s |}, Val tt).

(** *** [set_volume], lines 265-287 *)

(** lines 285-287 *)
Definition set_volume_global (volume : Z) (set_global : bool) : coro Fade unit :=
  if set_global then
    assign (set_volume_attr volume);;
    emit (Log Debug ("Changed music volume to " +:+ pretty volume))
  else mret tt.

(** line 282: [int(current_volume - (i + 1) * step_size)] *)
Definition new_volume (current_volume : Z) (step_size : float) (i : Z) : exn + Z :=
  x ← py_mul_int_float (i + 1) step_size;
  y ← py_sub_int_float current_volume x;
  py_int y.

(** lines 281-284: the [for] loop, entered for the iteration [f_i] *)
Definition set_volume_for (fr : Fade) : coro Fade unit :=
  if f_i fr <? f_n_steps fr then
    v ← lift (new_volume (f_current_volume fr) (f_step_size fr) (f_i fr));
    p ← the_player;
    emit (SetVolume p v);;
    seconds ← lift (py_truediv (f_seconds fr) (f_n_steps fr));
    sleep seconds fr
  else mret tt.

Definition next_iteration (fr : Fade) : Fade :=
  {| f_volume := f_volume fr; f_set_global := f_set_global fr;
     f_n_steps := f_n_steps fr; f_seconds := f_seconds fr;
     f_current_volume := f_current_volume fr;
     f_step_size := f_step_size fr; f_i := f_i fr + 1 |}.

(** the coroutine from its call to its first suspension or its end *)
Definition set_volume (volume : Z) (set_global smooth : bool)
    (n_steps seconds : Z) : coro Fade unit :=
  self ← get_self;
  match current_player self with
  | Some p =>
      if negb smooth then emit (SetVolume p volume)
      else
        env ← ask;
        let current_volume := audio_get_volume env in
        emit (GetVolume p current_volume);;
        step_size ← lift (py_truediv (current_volume - volume) n_steps);
        set_volume_for {| f_volume := volume; f_set_global := set_global;
                          f_n_steps := n_steps; f_seconds := seconds;
                          f_current_volume := current_volume;
                          f_step_size := step_size; f_i := 0 |}
  | None => mret tt
  end;;
  set_volume_global volume set_global.

(** the coroutine resumed at line 284 *)
Definition set_volume_resume (sig : signal) (fr : Fade) : coro Fade unit :=
  match sig with
  | Throw => raise CancelledError
  | Send => set_volume_for (next_iteration fr)
  end;;
  set_volume_global (f_volume fr) (f_set_global fr).

(** *** [cancel], lines 170-177 *)

(** lines 176-177: the [while] loop, entered at its test *)
Definition cancel_while : coro unit unit :=
  self ← get_self;
  match currently_playing self with
  | Some _ => sleep SLEEP_TIME tt
  | None => mret tt
  end.

Definition cancel : coro unit unit :=
  self ← get_self;
  match currently_playing self with
  | Some cp => task_cancel (task cp);; cancel_while
  | None => mret tt
  end.

(** the coroutine resumed at line 177 *)
Definition cancel_resume : coro unit unit := cancel_while.

(** *** [play_track_list], lines 179-193 *)

Inductive PlayFrame :=
| InCancel (group : MusicGroup.t) (track_list : TrackList.t)   (* line 188 *)
| InSleep.                                                     (* line 193 *)

(** lines 189-193 *)
Definition play_track_list_spawn (group : MusicGroup.t) (track_list : TrackList.t)
    : coro PlayFrame unit :=
  i ← create_task group track_list;
  assign (set_currently_playing
            (Some {| group := group; track_list := track_list; task := i |}));;
  emit (Log Debug ("Created a task to play '" +:+ TrackList.name track_list +:+ "'"));;
  sleep SLEEP_TIME InSleep.

Definition play_track_list (group_index track_list_index : Z) : coro PlayFrame unit :=
  self ← get_self;
  group ← lift (py_getitem (groups self) group_index);
  track_list ← lift (py_getitem (MusicGroup.track_lists group) track_list_index);
  emit (Log Debug ("Received request to play music from group "
                   +:+ pretty group_index +:+ " at index "
                   +:+ pretty track_list_index
                   +:+ " (" +:+ TrackList.name track_list +:+ ")"));;
  await_coro (λ _, InCancel group track_list) cancel;;
  play_track_list_spawn group track_list.

Definition play_track_list_resume (fr : PlayFrame) : coro PlayFrame unit :=
  match fr with
  | InCancel group track_list =>
      await_coro (λ _, InCancel group track_list) cancel_resume;;
      play_track_list_spawn group track_list
  | InSleep => mret tt
  end.

(** *** [_play_track_list], lines 195-246 *)

Section PlayTrackList.
Variables (group : MusicGroup.t) (track_list : TrackList.t).

(** lines 240-246: the handler of the outer [try] *)
Definition cleanup : coro Frame unit :=
  self ← get_self;
  match current_player self with
  | Some p => emit (Stop p)
  | None => mret tt
  end;;
  assign (set_currently_playing None);;
  assign (set_current_player None);;
  emit (Log Info ("Cancelled '" +:+ TrackList.name track_list +:+ "'"));;
  raise CancelledError.

(** lines 206-226: the body of the [for] loop up to its first await *)
Definition start_track (tracks : list Track.t) (track : Track.t) : coro Frame unit :=
  self ← get_self;
  root_directory ←
    except (lift (_get_track_list_root_directory self group track_list))
      ValueError
      (emit (Log Error ("Failed to play '" +:+ TrackList.name track_list
                        +:+ "'. You have to specify the directory on either the global level, group level or track list level."));;
       raise CancelledError);
  let file_path := path_join root_directory (Track.file track) in
  env ← ask;
  if negb (isfile env file_path) then
    emit (Log Error ("File " +:+ file_path +:+ " does not exist"));;
    raise CancelledError
  else
    p ← new_player file_path;
    assign (set_current_player (Some p));;
    p ← the_player;
    emit (SetVolume p 0);;
    p ← the_player;
    let success := play_result env in
    emit (Play p success);;
    if success =? -1 then
      emit (Log Error ("Failed to play " +:+ file_path));;
      raise CancelledError
    else
      match Track.start_at track with
      | Some ms => p ← the_player; emit (SetTime p ms)
      | None => mret tt
      end;;
      emit (Log Info ("Now Playing: " +:+ Track.file track));;
      sleep (float_literal 1 10) (AtSettle tracks track).

(** lines 202-205: a new pass of [while True] up to its first await. With
    no track the [for] loop has nothing to run and line 238 decides. *)
Definition start_pass : coro Frame unit :=
  env ← ask;
  let tracks := TrackList.tracks track_list in
  let tracks :=
    if TrackList.shuffle track_list then random_shuffle (randbelow env) tracks
    else tracks in
  match tracks with
  | track :: tracks => start_track tracks track
  | [] => if negb (TrackList.loop track_list) then mret tt else spin
  end.

(** line 205 with [tracks] left to iterate, then lines 238-239 *)
Definition next_track (tracks : list Track.t) : coro Frame unit :=
  match tracks with
  | track :: tracks => start_track tracks track
  | [] => if negb (TrackList.loop track_list) then mret tt else start_pass
  end.

(** lines 228-237: the [while] loop entered at its test *)
Definition poll (tracks : list Track.t) (track : Track.t) : coro Frame unit :=
  p ← the_player;
  env ← ask;
  emit (IsPlaying p (is_playing env));;
  if is_playing env then
    match Track.end_at track with
    | Some end_at =>
        p ← the_player;
        emit (GetTime p (get_time env));;
        if end_at <=? get_time env then p ← the_player; emit (Stop p)
        else mret tt
    | None => mret tt
    end;;
    sleep SLEEP_TIME (AtPoll tracks track)
  else
    emit (Log Info ("Finished playing: " +:+ Track.file track));;
    next_track tracks.

(** line 227 and what follows it *)
Definition fade_in (tracks : list Track.t) (track : Track.t)
    (m : coro Fade unit) : coro Frame unit :=
  await_coro (AtFadeIn tracks track) m;;
  poll tracks track.

(** lines 235-236 in the handler of the inner [try] *)
Definition fade_out (tracks : list Track.t) (track : Track.t)
    (m : coro Fade unit) : coro Frame unit :=
  await_coro (AtFadeOut tracks track) m;;
  raise CancelledError.

(** the outer [try] block, entered where the coroutine was suspended *)
Definition try_block (sig : signal) (fr : Frame) : coro Frame unit :=
  match fr, sig with
  | AtStart, _ =>
      emit (Log Info ("Loading '" +:+ TrackList.name track_list +:+ "'"));;
      start_pass
  | AtSettle tracks track, Send =>
      self ← get_self;
      fade_in tracks track (set_volume (volume self) false true 20 2)
  | AtSettle _ _, Throw => raise CancelledError
  | AtFadeIn tracks track f, _ =>
      fade_in tracks track (set_volume_resume sig f)
  | AtPoll tracks track, Send => poll tracks track
  | AtPoll tracks track, Throw =>
      emit (Log Debug ("Received cancellation request for " +:+ Track.file track));;
      fade_out tracks track (set_volume 0 false true 20 2)
  | AtFadeOut tracks track f, _ =>
      fade_out tracks track (set_volume_resume sig f)
  end.

(** One run of the coroutine. An exception thrown into a coroutine that
    has not started is raised before its first statement. *)
Definition _play_track_list (sig : signal) (fr : Frame) : coro Frame unit :=
  match fr, sig with
  | AtStart, Throw => raise CancelledError
  | _, _ => except (try_block sig fr) CancelledError cleanup
  end.

End PlayTrackList.

End MusicManager.

Import MusicManager.

(** ** The event loop

    asyncio runs one coroutine at a time, from a suspension point to the
    next. Clients of the manager await its three public coroutines; the
    manager's own task runs [_play_track_list]. Which suspended coroutine the
    loop resumes next depends on timers; here every order is allowed. *)

Inductive Op :=
| OpCancel
| OpPlay (group_index track_list_index : Z)
| OpSetVolume (volume : Z) (set_global smooth : bool) (n_steps seconds : Z).

Inductive CallFrame :=
| CancelCall
| PlayCall (fr : PlayFrame)
| SetVolumeCall (fr : Fade).

Definition call (op : Op) : coro CallFrame unit :=
  match op with
  | OpCancel => await_coro (λ _, CancelCall) cancel
  | OpPlay group_index track_list_index =>
      await_coro PlayCall (play_track_list group_index track_list_index)
  | OpSetVolume volume set_global smooth n_steps seconds =>
      await_coro SetVolumeCall (set_volume volume set_global smooth n_steps seconds)
  end.

Definition call_resume (fr : CallFrame) : coro CallFrame unit :=
  match fr with
  | CancelCall => await_coro (λ _, CancelCall) cancel_resume
  | PlayCall fr => await_coro PlayCall (play_track_list_resume fr)
  | SetVolumeCall fr => await_coro SetVolumeCall (set_volume_resume Send fr)
  end.

Record Loop := {
  state : State;
  calls : list (status CallFrame)     (* the clients' calls, oldest first *)
}.

Inductive Action :=
| StartCall (op : Op)       (* a client calls a public coroutine and awaits it *)
| RunCall (j : nat)         (* the loop resumes the client call number j *)
| RunTask (i : nat).        (* the loop resumes the task number i *)

Definition with_tasks (tks : list Task) (s : State) : State :=
  {| self := self s; tasks := tks; players := players s; trace := trace s |}.

Definition spinning (tk : Task) : bool :=
  match t_status tk with Spinning => true | _ => false end.

(** a coroutine that never awaits again keeps the loop for ever *)
Definition blocked (L : Loop) : bool := existsb spinning (tasks (state L)).

Definition start_call (env : Env) (op : Op) (L : Loop) : Loop :=
  let '(s, r) := call op env (state L) in
  {| state := s; calls := calls L ++ [status_of r] |}.

Definition run_call (env : Env) (j : nat) (L : Loop) : Loop :=
  match calls L !! j with
  | Some (Suspended fr) =>
      let '(s, r) := call_resume fr env (state L) in
      {| state := s; calls := <[j := status_of r]> (calls L) |}
  | _ => L
  end.

Definition run_task (env : Env) (i : nat) (L : Loop) : Loop :=
  match tasks (state L) !! i with
  | Some tk =>
      match t_status tk with
      | Suspended fr =>
          let sig := if t_must_cancel tk then Throw else Send in
          let '(s, r) :=
            _play_track_list (t_group tk) (t_track_list tk) sig fr env (state L) in
          {| state := with_tasks
                        (<[i := {| t_group := t_group tk;
                                   t_track_list := t_track_list tk;
                                   t_status := status_of r;
                                   t_must_cancel := false |}]> (tasks s)) s;
             calls := calls L |}
      | _ => L
      end
  | None => L
  end.

Definition exec (env : Env) (a : Action) (L : Loop) : Loop :=
  if blocked L then L
  else match a with
       | StartCall op => start_call env op L
       | RunCall j => run_call env j L
       | RunTask i => run_task env i L
       end.

Definition run (L : Loop) (script : list (Env * Action)) : Loop :=
  foldl (λ L ea, exec ea.1 ea.2 L) L script.

(** the loop right after the manager was built *)
Definition boot (m : MusicManager.t) : Loop :=
  {| state := {| self := m; tasks := []; players := 0; trace := [] |};
     calls := [] |}.

Definition reachable (m : MusicManager.t) (L : Loop) : Prop :=
  ∃ script, L = run (boot m) script.

(** * Notions used in the statements *)

Definition in_range {A} (seq : list A) (i : Z) : Prop :=
  - Z.of_nat (length seq) <= i < Z.of_nat (length seq).

(** the position an in-range index denotes, counted from the front *)
Definition position {A} (seq : list A) (i : Z) : nat :=
  Z.to_nat (if i <? 0 then Z.of_nat (length seq) + i else i).

Global Instance in_range_dec {A} (seq : list A) (i : Z) : Decision (in_range seq i).
Proof. unfold in_range. apply _. Defined.

(** [play_track_list] got as far as binding [group] and [track_list]: it is
    either waiting for the old session inside [cancel] with these two as its
    locals, or it has created the task for them and recorded it as number
    [i] in [currently_playing]. *)
Definition bound_to (g : MusicGroup.t) (tl : TrackList.t) (i : nat)
    (out : State * result PlayFrame unit) : Prop :=
  out.2 = Await (InCancel g tl)
  ∨ (out.2 = Await InSleep
     ∧ currently_playing (self out.1)
       = Some {| group := g; track_list := tl; task := i |}
     ∧ tasks out.1 !! i
       = Some {| t_group := g; t_track_list := tl;
                 t_status := Suspended AtStart; t_must_cancel := false |}).

(** *** Time strings *)

(** a field of one or two decimal digits and its value *)
Inductive digits12 : string → Z → Prop :=
| one_digit a x :
    digit_val a = Some x → digits12 (String a EmptyString) x
| two_digits a b x y :
    digit_val a = Some x → digit_val b = Some y →
    digits12 (String a (String b EmptyString)) (10 * x + y).

(** the strings of the format [%H:%M:%S]: three such fields between colons,
    hours up to 23, minutes up to 59, seconds up to 61 *)
Definition time_format (s : string) (H M S : Z) : Prop :=
  ∃ h m sec, s = h +:+ ":" +:+ m +:+ ":" +:+ sec
             ∧ digits12 h H ∧ digits12 m M ∧ digits12 sec S
             ∧ H <= 23 ∧ M <= 59 ∧ S <= 61.

(** The reading the specification gives: hours, minutes and seconds are any
    three integers written in decimal digits and separated by colons. *)
Fixpoint split_colon (s : string) : list string :=
  match s with
  | EmptyString => [EmptyString]
  | String c rest =>
      if Ascii.eqb c ":" then EmptyString :: split_colon rest
      else match split_colon rest with
           | field :: fields => String c field :: fields
           | [] => [String c EmptyString]
           end
  end.

Fixpoint decimal (acc : Z) (s : string) : option Z :=
  match s with
  | EmptyString => Some acc
  | String c rest =>
      match digit_val c with
      | Some x => decimal (10 * acc + x) rest
      | None => None
      end
  end.

Definition integer (s : string) : option Z :=
  match s with
  | EmptyString => None
  | _ => decimal 0 s
  end.

Definition hms_integers (s : string) : option (Z * Z * Z) :=
  match split_colon s with
  | [h; m; sec] =>
      H ← integer h; M ← integer m; S ← integer sec; Some (H, M, S)
  | _ => None
  end.

(** what [Track.__init__] makes of an optional time string *)
Definition converted (o : option string) (ms : option Z) : Prop :=
  match o with
  | None => ms = None
  | Some s => ∃ H M S, time_format s H M S
                       ∧ ms = Some ((S + 60 * M + 3600 * H) * 1000)
  end.

(** *** Volume fades *)

(** [[int(V0 - (i + 1) * step_size) for i in range(n_steps)]] with
    [step_size = (V0 - volume) / n_steps]: the volumes a fade writes. *)
Definition fade_writes (V0 volume n_steps : Z) : exn + list Z :=
  step_size ← py_truediv (V0 - volume) n_steps;
  comprehension (λ i, new_volume V0 step_size (Z.of_nat i))
    (seq 0 (Z.to_nat n_steps)).

(** [w] is an integer nearest to the fraction [num / den] *)
Definition nearest_integer (num den w : Z) : Prop :=
  2 * Z.abs (w * den - num) <= den.

(** a suspended [set_volume] resumed [k] times, or until it ends *)
Fixpoint resume_set_volume (k : nat) (env : Env)
    (out : State * result Fade unit) : State * result Fade unit :=
  match k with
  | O => out
  | S k' =>
      match out with
      | (s, Await fr) => resume_set_volume k' env (set_volume_resume Send fr env s)
      | _ => out
      end
  end.

Definition volume_writes (tr : list Event) : list Z :=
  omap (λ ev, match ev with SetVolume _ v => Some v | _ => None end) tr.

(** the last of the default 20 writes is the target, checked for one pair
    of volumes *)
Definition fade_reaches (V0 volume : Z) : bool :=
  match py_truediv (V0 - volume) 20 with
  | inr step_size =>
      match new_volume V0 step_size 19 with
      | inr w => w =? volume
      | inl _ => false
      end
  | inl _ => false
  end.

Definition fade_frame (volume : Z) (set_global : bool) (n seconds V0 : Z)
    (step : float) (i : Z) : Fade :=
  {| f_volume := volume; f_set_global := set_global; f_n_steps := n;
     f_seconds := seconds; f_current_volume := V0; f_step_size := step;
     f_i := i |}.

(** what a fade does to the engine and the clock for the writes [ws] *)
Definition fade_events (p : player) (d : float) (ws : list Z) : list Event :=
  ws ≫= λ w, [SetVolume p w; Sleep d].

Definition with_trace (tr : list Event) (s : State) : State :=
  {| self := self s; tasks := tasks s; players := players s; trace := tr |}.

(** *** A small installation, for the examples

    One group "G" with one track list "T" of two files in "/music", played
    once in the configured order. *)
Definition demo_track_list : TrackList.config :=
  {| TrackList.c_name := "T"; TrackList.c_directory := Some "/music";
     TrackList.c_loop := Some false; TrackList.c_shuffle := Some false;
     TrackList.c_tracks := [Track.Str "a.mp3"; Track.Str "b.mp3"] |}.

Definition demo_group : MusicGroup.config :=
  {| MusicGroup.c_name := "G"; MusicGroup.c_directory := None;
     MusicGroup.c_sort := None; MusicGroup.c_track_lists := [demo_track_list] |}.

Definition demo_config : MusicManager.config :=
  {| c_volume := 50; c_directory := None; c_sort := None;
     c_groups := [demo_group] |}.

Definition demo_manager : MusicManager.t :=
  match MusicManager.__init__ demo_config with
  | inr m => m
  | inl _ => {| volume := 0; directory := None; groups := [];
                currently_playing := None; current_player := None |}
  end.

(** every file exists, the engine starts and reports [playing] at volume
    [v]; the random source always answers 0 *)
Definition demo_env (playing : bool) (v : Z) : Env :=
  {| isfile := λ _, true; play_result := 0; is_playing := playing;
     get_time := 0; audio_get_volume := v; randbelow := λ _, 0%nat |}.

(** a state in which player 0 is the live engine handle *)
Definition demo_playing : State :=
  {| self := set_current_player (Some 0%nat) demo_manager; tasks := [];
     players := 1; trace := [] |}.

(** *** Reasoning about coroutine code

    The state after one event, one assignment to the manager, one new
    player. *)
Definition push (ev : Event) (s : State) : State :=
  {| self := self s; tasks := tasks s; players := players s;
     trace := trace s ++ [ev] |}.

Definition set_self (f : MusicManager.t → MusicManager.t) (s : State) : State :=
  {| self := f (self s); tasks := tasks s; players := players s;
     trace := trace s |}.

Definition alloc (file_path : string) (s : State) : State :=
  {| self := self s; tasks := tasks s; players := S (players s);
     trace := trace s ++ [NewPlayer (players s) file_path] |}.

(** [Q] holds of the state and the result in which [m] ends when it is run
    in [s]; [bindQ], [exceptQ] and [insideQ] say what that means for the code
    around [m]. *)
Definition wp {F A} (m : coro F A) (env : Env) (s : State)
    (Q : State → result F A → Prop) : Prop :=
  Q (m env s).1 (m env s).2.

Definition bindQ {F A B} (k : A → coro F B) (env : Env)
    (Q : State → result F B → Prop) (s : State) (r : result F A) : Prop :=
  match r with
  | Val a => wp (k a) env s Q
  | Raise e => Q s (Raise e)
  | Await fr => Q s (Await fr)
  | Spin => Q s Spin
  end.

Definition exceptQ {F A} (E : exn) (handler : coro F A) (env : Env)
    (Q : State → result F A → Prop) (s : State) (r : result F A) : Prop :=
  match r with
  | Raise e => if decide (e = E) then wp handler env s Q else Q s (Raise e)
  | _ => Q s r
  end.

Definition insideQ {F G A} (inside : G → F)
    (Q : State → result F A → Prop) (s : State) (r : result G A) : Prop :=
  match r with
  | Val a => Q s (Val a)
  | Raise e => Q s (Raise e)
  | Await fr => Q s (Await (inside fr))
  | Spin => Q s Spin
  end.

(** *** Sessions *)

(** a frame of the session whose fade, if any, is one of its own two calls
    of [set_volume], which pass [set_global=False] *)
Definition own_fade (fr : Frame) : Prop :=
  match fr with
  | AtFadeIn _ _ f | AtFadeOut _ _ f => f_set_global f = false
  | _ => True
  end.

(** line 245 *)
Definition cancelled_message (tl : TrackList.t) : Event :=
  Log Info ("Cancelled '" +:+ TrackList.name tl +:+ "'").

(** Whether player [p] is sounding, as far as the program can know: its
    [play()] succeeded and since then neither [stop()] was called on it nor
    [is_playing()] answered false. *)
Definition live_after (p : player) (b : bool) (ev : Event) : bool :=
  match ev with
  | Play q success => if decide (q = p) then negb (success =? -1) else b
  | Stop q => if decide (q = p) then false else b
  | IsPlaying q playing => if decide (q = p) then b && playing else b
  | _ => b
  end.

Definition live (tr : list Event) (p : player) : bool :=
  foldl (live_after p) false tr.

(** the events that say nothing about whether a player sounds *)
Definition inert (ev : Event) : Prop :=
  match ev with
  | Play _ _ | Stop _ | IsPlaying _ _ | NewPlayer _ _ => False
  | _ => True
  end.

(** the tracks a suspended session still has to play in this pass, the
    current one first *)
Definition remaining (fr : Frame) : list Track.t :=
  match fr with
  | AtStart => []
  | AtSettle tracks track | AtFadeIn tracks track _
  | AtPoll tracks track | AtFadeOut tracks track _ => track :: tracks
  end.

(** the task [create_task] adds, and the state after [create_task] and
    after [task.cancel()] on task [i] *)
Definition new_task (g : MusicGroup.t) (tl : TrackList.t) : Task :=
  {| t_group := g; t_track_list := tl; t_status := Suspended AtStart;
     t_must_cancel := false |}.

Definition spawned (g : MusicGroup.t) (tl : TrackList.t) (s : State) : State :=
  {| self := self s; tasks := tasks s ++ [new_task g tl];
     players := players s; trace := trace s |}.

Definition cancel_requested (i : nat) (s : State) : State :=
  {| self := self s;
     tasks := match tasks s !! i with
              | Some tk => <[i := request_cancel tk]> (tasks s)
              | None => tasks s
              end;
     players := players s; trace := trace s |}.

(** [tr'] is [tr] followed by events that say nothing about players *)
Definition quiet_extension (tr tr' : list Event) : Prop :=
  ∃ evs, tr' = tr ++ evs ∧ Forall inert evs.

(** What one run of a client's call can do to the state: nothing to the
    configuration, the engine handle or the players; to the session either
    nothing, or a cancellation request to the recorded task, or, when no
    session is recorded, a new task recorded as the session. *)
Definition call_effect (s s' : State) : Prop :=
  groups (self s') = groups (self s)
  ∧ directory (self s') = directory (self s)
  ∧ current_player (self s') = current_player (self s)
  ∧ players s' = players s
  ∧ quiet_extension (trace s) (trace s')
  ∧ ((tasks s' = tasks s
      ∧ currently_playing (self s') = currently_playing (self s))
     ∨ (∃ cp tk, currently_playing (self s) = Some cp
                 ∧ tasks s !! task cp = Some tk
                 ∧ tasks s' = <[task cp := request_cancel tk]> (tasks s)
                 ∧ self s' = self s)
     ∨ (∃ g tl, currently_playing (self s) = None
                ∧ tasks s' = tasks s ++ [new_task g tl]
                ∧ self s'
                  = set_currently_playing
                      (Some {| group := g; track_list := tl;
                               task := length (tasks s) |}) (self s))).

(** *** The event loop *)

(** What holds of the loop whatever the clients and the engine do, once
    the manager was built without a session: the only task that can still
    run is the one recorded in [currently_playing]; without a recorded
    session there is no engine handle; a task that has not run yet finds no
    engine handle; a player that sounds is the engine handle; the engine
    handle is a player that was created. *)
Definition invariant (L : Loop) : Prop :=
  let s := state L in
  (∀ i tk, tasks s !! i = Some tk → done (t_status tk) = false →
           ∃ cp, currently_playing (self s) = Some cp ∧ task cp = i)
  ∧ (currently_playing (self s) = None → current_player (self s) = None)
  ∧ (∀ i tk, tasks s !! i = Some tk → t_status tk = Suspended AtStart →
             current_player (self s) = None)
  ∧ (∀ p, live (trace s) p = true → current_player (self s) = Some p)
  ∧ (∀ p, current_player (self s) = Some p → (p < players s)%nat).

(** a manager as [__init__] leaves it: no session, no engine handle *)
Definition fresh (m : MusicManager.t) : Prop :=
  currently_playing m = None ∧ current_player m = None.

(** the small installation after [play_track_list(0, 0)] was called and the
    session task has run once: "a.mp3" is starting *)
Definition demo_started : Loop :=
  run (boot demo_manager)
    [(demo_env true 0, StartCall (OpPlay 0 0)); (demo_env true 0, RunTask 0%nat)].

(** A session is recorded but no task is left to clear it. *)
Definition wedged (L : Loop) : Prop :=
  is_Some (currently_playing (self (state L)))
  ∧ ∀ i tk, tasks (state L) !! i = Some tk → done (t_status tk) = true.

(** the demo driven until the session task has played both files and
    returned: [polls] runs of the task with the engine playing, then one with
    the engine at the end of the file, twice *)
Definition demo_turns (polls : nat) : list (Env * Action) :=
  replicate polls (demo_env true 0, RunTask 0%nat)
  ++ [(demo_env false 0, RunTask 0%nat)].

Definition demo_played : Loop :=
  run demo_started (demo_turns 22 ++ replicate 21 (demo_env true 0, RunTask 0%nat)).

Definition demo_finished : Loop :=
  exec (demo_env false 0) (RunTask 0%nat) demo_played.

(** a call that waits in [cancel], either called directly or from
    [play_track_list] *)
Definition waits_in_cancel (st : status CallFrame) : Prop :=
  st = Suspended CancelCall ∨ ∃ g tl, st = Suspended (PlayCall (InCancel g tl)).

(** since the trace was [tr0], a session's cleanup has logged its line *)
Definition cleanup_since (tr0 tr : list Event) : Prop :=
  ∃ tl evs1 evs2, tr = tr0 ++ evs1 ++ cancelled_message tl :: evs2.

(** *** The global volume *)

Definition in_volume_range (v : Z) : Prop := 0 <= v <= 100.

(** the client asks for a global volume only within 0..100 *)
Definition asks_in_range (ea : Env * Action) : Prop :=
  match ea.2 with
  | StartCall (OpSetVolume v true _ _ _) => in_volume_range v
  | _ => True
  end.

(** the global volume is within 0..100, and so is every volume a suspended
    [set_volume] will store; the session's own fades store none *)
Definition volume_invariant (L : Loop) : Prop :=
  in_volume_range (volume (self (state L)))
  ∧ (∀ j f, calls L !! j = Some (Suspended (SetVolumeCall f)) →
            f_set_global f = true → in_volume_range (f_volume f))
  ∧ (∀ i tk fr, tasks (state L) !! i = Some tk →
                t_status tk = Suspended fr → own_fade fr).

(** *** The configuration *)

(** [tl] is a track list of the group [g] of the manager [m] *)
Definition configured (m : MusicManager.t) (g : MusicGroup.t) (tl : TrackList.t) : Prop :=
  g ∈ groups m ∧ tl ∈ MusicGroup.track_lists g.

(** the session works on a copy: what it has left to play in this pass,
    after what it has played, is the stored tuple in some order *)
Definition plays_copy (tk : Task) : Prop :=
  ∀ fr, t_status tk = Suspended fr →
        ∃ played, played ++ remaining fr ≡ₚ TrackList.tracks (t_track_list tk).

Definition config_invariant (m : MusicManager.t) (L : Loop) : Prop :=
  groups (self (state L)) = groups m
  ∧ directory (self (state L)) = directory m
  ∧ (∀ i tk, tasks (state L) !! i = Some tk →
             configured m (t_group tk) (t_track_list tk) ∧ plays_copy tk)
  ∧ (∀ j g tl, calls L !! j = Some (Suspended (PlayCall (InCancel g tl))) →
               configured m g tl).

(** *** Starting and ending tracks *)

(** lines 202-204: the order in which a pass plays the tracks *)
Definition pass_order (env : Env) (tl : TrackList.t) : list Track.t :=
  if TrackList.shuffle tl
  then random_shuffle (randbelow env) (TrackList.tracks tl)
  else TrackList.tracks tl.

(** line 200 *)
Definition loading_message (tl : TrackList.t) : Event :=
  Log Info ("Loading '" +:+ TrackList.name tl +:+ "'").

(** the manager after the cleanup of lines 243-244 *)
Definition cleared (m : MusicManager.t) : MusicManager.t :=
  set_current_player None (set_currently_playing None m).

(** the smallest track list the tests build: a name and no track, so
    [loop] and [shuffle] take their default [True] *)
Definition minimal_manager : MusicManager.t :=
  match MusicManager.__init__
          {| c_volume := 50; c_directory := None; c_sort := None;
             c_groups :=
               [{| MusicGroup.c_name := "G"; MusicGroup.c_directory := None;
                   MusicGroup.c_sort := None;
                   MusicGroup.c_track_lists :=
                     [{| TrackList.c_name := "Some Name";
                         TrackList.c_directory := None;
                         TrackList.c_loop := None;
                         TrackList.c_shuffle := None;
                         TrackList.c_tracks := [] |}] |}] |}
  with
  | inr m => m
  | inl _ => demo_manager
  end.

Definition minimal_requested : Loop :=
  exec (demo_env true 0) (StartCall (OpPlay 0 0)) (boot minimal_manager).

(** lines 209-211, 215, 221, 225, 234 and 237: the log lines of a session *)
Definition no_directory_message (tl : TrackList.t) : Event :=
  Log Error ("Failed to play '" +:+ TrackList.name tl
             +:+ "'. You have to specify the directory on either the global level, group level or track list level.").

Definition missing_file_message (file_path : string) : Event :=
  Log Error ("File " +:+ file_path +:+ " does not exist").

Definition failed_play_message (file_path : string) : Event :=
  Log Error ("Failed to play " +:+ file_path).

Definition now_playing_message (track : Track.t) : Event :=
  Log Info ("Now Playing: " +:+ Track.file track).

Definition received_cancel_message (track : Track.t) : Event :=
  Log Debug ("Received cancellation request for " +:+ Track.file track).

Definition finished_message (track : Track.t) : Event :=
  Log Info ("Finished playing: " +:+ Track.file track).

(** lines 241-242: [stop()] on the engine handle, if there is one *)
Definition stop_handle (handle : option player) : list Event :=
  match handle with
  | Some p => [Stop p]
  | None => []
  end.

(** lines 223-224: [set_time(start_at)], if the track has a start *)
Definition seek_start (p : player) (track : Track.t) : list Event :=
  match Track.start_at track with
  | Some ms => [SetTime p ms]
  | None => []
  end.

(** lines 230-231: the trim at a poll, for the position the engine reports *)
Definition trim (p : player) (track : Track.t) (position : Z) : list Event :=
  match Track.end_at track with
  | Some end_at =>
      GetTime p position :: (if end_at <=? position then [Stop p] else [])
  | None => []
  end.

(** the track list and the group of the small installation, as built *)
Definition demo_list : TrackList.t :=
  {| TrackList.name := "T"; TrackList.directory := Some "/music";
     TrackList.loop := false; TrackList.shuffle := false;
     TrackList.tracks :=
       [{| Track.file := "a.mp3"; Track.start_at := None; Track.end_at := None |};
        {| Track.file := "b.mp3"; Track.start_at := None; Track.end_at := None |}] |}.

Definition demo_built_group : MusicGroup.t :=
  {| MusicGroup.name := "G"; MusicGroup.directory := None;
     MusicGroup.track_lists := [demo_list] |}.

(** the same track list with no directory at any level *)
Definition bare_list : TrackList.t :=
  {| TrackList.name := "T"; TrackList.directory := None;
     TrackList.loop := false; TrackList.shuffle := false;
     TrackList.tracks := TrackList.tracks demo_list |}.

(** an environment in which no file exists, and one in which the engine
    refuses to play *)
Definition no_file_env : Env :=
  {| isfile := λ _, false; play_result := 0; is_playing := true;
     get_time := 0; audio_get_volume := 0; randbelow := λ _, 0%nat |}.

Definition no_play_env : Env :=
  {| isfile := λ _, true; play_result := -1; is_playing := true;
     get_time := 0; audio_get_volume := 0; randbelow := λ _, 0%nat |}.

(** [file_path = os.path.join(root_directory, track.file)] *)
Definition track_path (root : string) (track : Track.t) : string :=
  path_join root (Track.file track).

(** * Properties *)

(** ** Sequence indexing *)

Lemma py_getitem_out {A} (seq : list A) (i : Z) :
  ¬ in_range seq i → py_getitem seq i = inl IndexError.
Proof.
  unfold in_range, py_getitem; intros Hout.
  destruct (i <? 0) eqn:Hneg; [apply Z.ltb_lt in Hneg | apply Z.ltb_ge in Hneg].
  - replace (i + Z.of_nat (length seq) <? 0) with true; [done|].
    symmetry; apply Z.ltb_lt; lia.
  - replace (i <? 0) with false by (symmetry; apply Z.ltb_ge; lia).
    replace (Z.of_nat (length seq) <=? i) with true; [done|].
    symmetry; apply Z.leb_le; lia.
Qed.

Lemma py_getitem_in {A} (seq : list A) (i : Z) :
  in_range seq i →
  ∃ x, py_getitem seq i = inr x ∧ seq !! position seq i = Some x.
Proof.
  unfold in_range, py_getitem, position; intros Hin.
  set (n := Z.of_nat (length seq)) in *.
  set (j := if i <? 0 then i + n else i).
  assert (Hj : 0 <= j < n) by (subst j; destruct (Z.ltb_spec i 0); lia).
  replace (if i <? 0 then n + i else i) with j
    by (subst j; destruct (i <? 0); lia).
  replace (j <? 0) with false by (symmetry; apply Z.ltb_ge; lia).
  replace (n <=? j) with false by (symmetry; apply Z.leb_gt; lia).
  destruct (lookup_lt_is_Some_2 seq (Z.to_nat j)) as [x Hx]; [subst n; lia|].
  exists x; simpl; by rewrite Hx.
Qed.

Lemma py_getitem_raises {A} (seq : list A) (i : Z) (e : exn) :
  py_getitem seq i = inl e → e = IndexError ∧ ¬ in_range seq i.
Proof.
  intros He. destruct (decide (in_range seq i)) as [Hin|Hout].
  - destruct (py_getitem_in seq i Hin) as (x & Hx & _). congruence.
  - rewrite (py_getitem_out seq i Hout) in He. by simplify_eq.
Qed.

(** ** Running coroutine code *)

Ltac coro_unfold :=
  cbv [mbind mret coro_bind coro_ret raise await spin ask get_self
       lift assign emit sleep except await_coro the_player new_player
       create_task task_cancel] in *.

(** ** Directory lookup *)

(** C3: the root directory of a track list is its own directory if set, else
    the group's if set, else the manager's if set; the lookup raises, and then
    [ValueError], exactly when none of the three is set. *)
Theorem directory_resolution_order (self : MusicManager.t)
    (group : MusicGroup.t) (track_list : TrackList.t) :
  _get_track_list_root_directory self group track_list
  = match TrackList.directory track_list, MusicGroup.directory group,
          directory self with
    | Some d, _, _ => inr d
    | None, Some d, _ => inr d
    | None, None, Some d => inr d
    | None, None, None => inl ValueError
    end
  ∧ ((∃ e, _get_track_list_root_directory self group track_list = inl e)
     ↔ TrackList.directory track_list = None
       ∧ MusicGroup.directory group = None
       ∧ directory self = None).
Proof.
  unfold _get_track_list_root_directory.
  destruct (TrackList.directory track_list), (MusicGroup.directory group),
    (directory self); (split; [reflexivity|]); split;
    try (intros [e He]; discriminate); try (intros (? & ? & ?); discriminate);
    eauto.
Qed.

(** ** Indices given to [play_track_list] *)

Lemma play_track_list_index_error gi ti env s :
  (¬ in_range (groups (self s)) gi
   ∨ ∃ g, py_getitem (groups (self s)) gi = inr g
          ∧ ¬ in_range (MusicGroup.track_lists g) ti) →
  play_track_list gi ti env s = (s, Raise IndexError).
Proof.
  intros [Hg | (g & Hg & Ht)]; unfold play_track_list.
  - apply py_getitem_out in Hg. coro_unfold. simpl. by rewrite Hg.
  - apply py_getitem_out in Ht. coro_unfold. simpl. rewrite Hg. simpl.
    by rewrite Ht.
Qed.

Lemma play_track_list_bound gi ti env s g tl :
  py_getitem (groups (self s)) gi = inr g →
  py_getitem (MusicGroup.track_lists g) ti = inr tl →
  bound_to g tl (length (tasks s)) (play_track_list gi ti env s).
Proof.
  intros Hg Ht. unfold bound_to, play_track_list, cancel, cancel_while,
    play_track_list_spawn.
  coro_unfold. simpl. rewrite Hg. simpl. rewrite Ht. simpl.
  destruct (currently_playing (self s)) as [cp|] eqn:Hcp; simpl.
  - rewrite Hcp. by left.
  - right. split; [done|]. split; [done|].
    rewrite lookup_app_r by done. by rewrite Nat.sub_diag.
Qed.

(** C8: an index that denotes no element of [groups], or of the selected
    group's [track_lists], makes [play_track_list] raise [IndexError] before
    it has touched anything: the manager, its session and its engine handle
    are as they were, and the client awaiting the call gets the exception. *)
Theorem index_error_leaves_state (env : Env) (L : Loop) (gi ti : Z) :
  (¬ in_range (groups (self (state L))) gi
   ∨ ∃ g, groups (self (state L)) !! position (groups (self (state L))) gi = Some g
          ∧ ¬ in_range (MusicGroup.track_lists g) ti) →
  play_track_list gi ti env (state L) = (state L, Raise IndexError)
  ∧ start_call env (OpPlay gi ti) L
    = {| state := state L; calls := calls L ++ [Finished (inl IndexError)] |}.
Proof.
  intros Hout.
  assert (Hrun : play_track_list gi ti env (state L) = (state L, Raise IndexError)).
  { apply play_track_list_index_error. destruct Hout as [Hg | (g & Hg & Ht)]; [by left|].
    destruct (decide (in_range (groups (self (state L))) gi)) as [Hin|Hnin]; [|by left].
    right. exists g. split; [|done].
    destruct (py_getitem_in _ _ Hin) as (x & Hx & Hpos). congruence. }
  split; [done|].
  unfold start_call, call, await_coro. by rewrite Hrun.
Qed.

Lemma index_error_leaves_state_witness :
  let L := boot {| volume := 50; directory := None; groups := [];
                   currently_playing := None; current_player := None |} in
  start_call
    {| isfile := λ _, true; play_result := 0; is_playing := true;
       get_time := 0; audio_get_volume := 0; randbelow := λ _, 0%nat |}
    (OpPlay 0 0) L
  = {| state := state L; calls := calls L ++ [Finished (inl IndexError)] |}.
Proof.
  intros L. apply (index_error_leaves_state _ L 0 0).
  left. unfold in_range. simpl. lia.
Defined.

(** C10: [play_track_list] takes negative indices the way Python sequences
    do. With [n] groups, a group index [-n <= gi <= -1] selects the group at
    position [n + gi]; likewise for the track lists of the selected group.
    [IndexError] is raised precisely when the group index lies outside
    [-n .. n-1], or the track-list index outside [-k .. k-1] for the [k]
    track lists of the selected group. *)
Theorem negative_indices_accepted (env : Env) (s : State) (gi ti : Z) :
  let gs := groups (self s) in
  let n := Z.of_nat (length gs) in
  let out := play_track_list gi ti env s in
  (out.2 = Raise IndexError
   ↔ (gi < - n ∨ n <= gi)
     ∨ ∃ g, gs !! position gs gi = Some g
            ∧ let k := Z.of_nat (length (MusicGroup.track_lists g)) in
              ti < - k ∨ k <= ti)
  ∧ (- n <= gi <= -1 →
     ∃ g, gs !! Z.to_nat (n + gi) = Some g
          ∧ py_getitem gs gi = inr g
          ∧ ∀ tl, py_getitem (MusicGroup.track_lists g) ti = inr tl →
                  bound_to g tl (length (tasks s)) out)
  ∧ (∀ g, py_getitem gs gi = inr g →
          let tls := MusicGroup.track_lists g in
          let k := Z.of_nat (length tls) in
          - k <= ti <= -1 →
          ∃ tl, tls !! Z.to_nat (k + ti) = Some tl
                ∧ bound_to g tl (length (tasks s)) out).
Proof.
  intros gs n out. split; [|split].
  - split.
    + intros Hraise.
      destruct (decide (in_range gs gi)) as [Hin|Hout];
        [|left; unfold in_range in Hout; lia].
      destruct (py_getitem_in gs gi Hin) as (g & Hg & Hpos).
      right. exists g. split; [done|]. simpl.
      destruct (decide (in_range (MusicGroup.track_lists g) ti)) as [Hin'|Hout'];
        [|unfold in_range in Hout'; lia].
      destruct (py_getitem_in _ ti Hin') as (tl & Htl & _).
      pose proof (play_track_list_bound gi ti env s g tl Hg Htl) as Hb.
      fold out in Hb. destruct Hb as [Hb|[Hb _]]; congruence.
    + intros Hout. subst out. rewrite play_track_list_index_error; [done|].
      destruct Hout as [Hout|(g & Hpos & Hout)].
      * left. unfold in_range. fold gs n. lia.
      * destruct (decide (in_range gs gi)) as [Hin|Hnin]; [|by left].
        right. exists g. destruct (py_getitem_in gs gi Hin) as (g' & Hg & Hpos').
        rewrite Hpos in Hpos'. injection Hpos' as <-.
        split; [done|]. unfold in_range. simpl in Hout. lia.
  - intros Hneg.
    assert (Hin : in_range gs gi) by (unfold in_range; fold n; lia).
    destruct (py_getitem_in gs gi Hin) as (g & Hg & Hpos).
    exists g. split; [|split; [done|]].
    + unfold position in Hpos. fold n in Hpos.
      replace (gi <? 0) with true in Hpos by (symmetry; apply Z.ltb_lt; lia).
      done.
    + intros tl Htl. by apply play_track_list_bound.
  - intros g Hg tls k Hneg.
    assert (Hin : in_range tls ti) by (unfold in_range; fold k; lia).
    destruct (py_getitem_in tls ti Hin) as (tl & Htl & Hpos).
    exists tl. split; [|by apply play_track_list_bound].
    unfold position in Hpos. fold k in Hpos.
    replace (ti <? 0) with true in Hpos by (symmetry; apply Z.ltb_lt; lia).
    done.
Qed.

(** ** Time strings *)

Lemma digit_val_range a x : digit_val a = Some x → 0 <= x <= 9.
Proof.
  unfold digit_val. intros H. case_match; [|done]. simplify_eq. lia.
Qed.

Lemma digit_not_colon a x : digit_val a = Some x → Ascii.eqb a ":" = false.
Proof.
  intros H. destruct (Ascii.eqb_spec a ":") as [->|]; [|done].
  vm_compute in H. discriminate.
Qed.

Lemma re_two_inv lo1 hi1 lo2 hi2 s v r :
  (v, r) ∈ re_two lo1 hi1 lo2 hi2 s →
  ∃ a b x y, s = String a (String b r) ∧ digit_val a = Some x
    ∧ digit_val b = Some y ∧ v = 10 * x + y
    ∧ lo1 <= x <= hi1 ∧ lo2 <= y <= hi2.
Proof.
  unfold re_two. intros H. repeat case_match; try by apply elem_of_nil in H.
  apply list_elem_of_singleton in H. simplify_eq.
  eexists _, _, _, _. repeat split; try done; lia.
Qed.

Lemma re_one_inv s v r :
  (v, r) ∈ re_one s → ∃ a, s = String a r ∧ digit_val a = Some v.
Proof.
  unfold re_one. intros H. repeat case_match; try by apply elem_of_nil in H.
  apply list_elem_of_singleton in H. simplify_eq. eauto.
Qed.

Lemma re_colon_inv s r : r ∈ re_colon s → s = String ":" r.
Proof.
  unfold re_colon. intros H. repeat case_match; try by apply elem_of_nil in H.
  apply list_elem_of_singleton in H. simplify_eq.
  by rewrite (proj1 (Ascii.eqb_eq _ _) H1).
Qed.

Lemma re_field_inv lo1 hi1 lo2 hi2 s v r :
  (v, r) ∈ re_two lo1 hi1 lo2 hi2 s ∨ (v, r) ∈ re_one s →
  0 <= lo1 → 
  ∃ f, s = f +:+ r ∧ digits12 f v ∧ (v <= 9 ∨ (10 * lo1 + lo2 <= v <= 10 * hi1 + hi2)).
Proof.
  intros [H|H] Hlo.
  - apply re_two_inv in H as (a & b & x & y & -> & Ha & Hb & -> & ? & ?).
    exists (String a (String b "")). split; [done|]. split; [by constructor|].
    right. lia.
  - apply re_one_inv in H as (a & -> & Ha).
    exists (String a ""). split; [done|]. split; [by constructor|].
    left. apply digit_val_range in Ha. lia.
Qed.

Lemma re_H_inv s v r :
  (v, r) ∈ re_H s → ∃ f, s = f +:+ r ∧ digits12 f v ∧ v <= 23.
Proof.
  unfold re_H. rewrite !elem_of_app. intros H.
  destruct H as [H|[H|H]].
  - destruct (re_field_inv 2 2 0 3 s v r) as (f & ? & ? & ?); [by left|lia|].
    exists f. repeat split; try done. lia.
  - destruct (re_field_inv 0 1 0 9 s v r) as (f & ? & ? & ?); [by left|lia|].
    exists f. repeat split; try done. lia.
  - destruct (re_field_inv 0 0 0 0 s v r) as (f & ? & ? & ?); [by right|lia|].
    exists f. repeat split; try done. lia.
Qed.

Lemma re_M_inv s v r :
  (v, r) ∈ re_M s → ∃ f, s = f +:+ r ∧ digits12 f v ∧ v <= 59.
Proof.
  unfold re_M. rewrite !elem_of_app. intros H.
  destruct H as [H|H].
  - destruct (re_field_inv 0 5 0 9 s v r) as (f & ? & ? & ?); [by left|lia|].
    exists f. repeat split; try done. lia.
  - destruct (re_field_inv 0 0 0 0 s v r) as (f & ? & ? & ?); [by right|lia|].
    exists f. repeat split; try done. lia.
Qed.

Lemma re_S_inv s v r :
  (v, r) ∈ re_S s → ∃ f, s = f +:+ r ∧ digits12 f v ∧ v <= 61.
Proof.
  unfold re_S. rewrite !elem_of_app. intros H.
  destruct H as [H|[H|H]].
  - destruct (re_field_inv 6 6 0 1 s v r) as (f & ? & ? & ?); [by left|lia|].
    exists f. repeat split; try done. lia.
  - destruct (re_field_inv 0 5 0 9 s v r) as (f & ? & ? & ?); [by left|lia|].
    exists f. repeat split; try done. lia.
  - destruct (re_field_inv 0 0 0 0 s v r) as (f & ? & ? & ?); [by right|lia|].
    exists f. repeat split; try done. lia.
Qed.

Lemma re_HMS_inv s tm r :
  (tm, r) ∈ re_HMS s →
  ∃ h m sec, s = h +:+ ":" +:+ m +:+ ":" +:+ sec +:+ r
    ∧ digits12 h (tm_hour tm) ∧ digits12 m (tm_min tm) ∧ digits12 sec (tm_sec tm)
    ∧ tm_hour tm <= 23 ∧ tm_min tm <= 59 ∧ tm_sec tm <= 61.
Proof.
  unfold re_HMS. intros H.
  apply list_elem_of_bind in H as ([h r1] & H & Hh).
  apply list_elem_of_bind in H as (r2 & H & Hc1).
  apply list_elem_of_bind in H as ([m r3] & H & Hm).
  apply list_elem_of_bind in H as (r4 & H & Hc2).
  apply list_elem_of_bind in H as ([sec r5] & H & Hs).
  apply list_elem_of_singleton in H. simplify_eq. simpl.
  apply re_H_inv in Hh as (fh & -> & ? & ?).
  apply re_colon_inv in Hc1 as ->.
  apply re_M_inv in Hm as (fm & -> & ? & ?).
  apply re_colon_inv in Hc2 as ->.
  apply re_S_inv in Hs as (fs & -> & ? & ?).
  exists fh, fm, fs. repeat split; try done.
Qed.

Lemma strptime_inv s tm :
  strptime_HMS s = inr tm →
  time_format s (tm_hour tm) (tm_min tm) (tm_sec tm).
Proof.
  unfold strptime_HMS. destruct (re_HMS s) as [|[tm' r] l] eqn:E; [done|].
  destruct r; [|done]. intros [= ->].
  assert (H : (tm, EmptyString) ∈ re_HMS s) by (rewrite E; left).
  apply re_HMS_inv in H as (h & m & sec & -> & ?).
  exists h, m, sec. split; [|done].
  assert (Hnil : ∀ x : string, x +:+ EmptyString = x).
  { induction x as [|c x IH]; [done|].
    change (String c (x +:+ EmptyString) = String c x). by rewrite IH. }
  by rewrite Hnil.
Qed.

Lemma strptime_intro s H M S :
  time_format s H M S →
  strptime_HMS s = inr {| tm_hour := H; tm_min := M; tm_sec := S |}.
Proof.
  intros (h & m & sec & -> & Hh & Hm & Hs & ? & ? & ?).
  destruct Hh as [a x Ha|a b x y Ha Hb];
  destruct Hm as [c z Hc|c d z w Hc Hd];
  destruct Hs as [e u He|e f u v He Hf];
    repeat match goal with
           | H : digit_val _ = Some _ |- _ =>
               pose proof (digit_val_range _ _ H);
               pose proof (digit_not_colon _ _ H); revert H
           end; intros.
  all: cbv [String.append].
  all: unfold strptime_HMS, re_HMS, re_H, re_M, re_S, re_two, re_one, re_colon; simpl.
  all: assert (Hcolon : digit_val ":" = None) by reflexivity.
  all: repeat first
    [ progress simpl
    | match goal with H : digit_val _ = _ |- _ => rewrite H end
    | match goal with
      | |- context [?a <=? ?b] => destruct (Z.leb_spec a b); try lia
      end ].
  all: try done.
Qed.

Lemma time_format_integers s H M S :
  time_format s H M S → hms_integers s = Some (H, M, S).
Proof.
  intros (h & m & sec & -> & Hh & Hm & Hs & ? & ? & ?).
  destruct Hh as [a x Ha|a b x y Ha Hb];
  destruct Hm as [c z Hc|c d z w Hc Hd];
  destruct Hs as [e u He|e f u v He Hf];
    repeat match goal with
           | H : digit_val _ = Some _ |- _ =>
               pose proof (digit_not_colon _ _ H); revert H
           end; intros.
  all: cbv [String.append].
  all: unfold hms_integers, split_colon, integer, decimal.
  all: repeat first
    [ progress simpl
    | match goal with H : digit_val _ = _ |- _ => rewrite H end
    | match goal with H : Ascii.eqb _ _ = false |- _ => rewrite H end ].
  all: repeat f_equal; lia.
Qed.

Lemma convert_iff s v :
  Track._convert_formatted_time_to_ms s = inr v
  ↔ ∃ H M S, time_format s H M S ∧ v = (S + 60 * M + 3600 * H) * 1000.
Proof.
  unfold Track._convert_formatted_time_to_ms. split.
  - destruct (strptime_HMS s) as [e|tm] eqn:E; [done|]. simpl. intros [= <-].
    exists (tm_hour tm), (tm_min tm), (tm_sec tm).
    split; [by apply strptime_inv|lia].
  - intros (H & M & S & Hf & ->). rewrite (strptime_intro s H M S Hf). simpl.
    f_equal. lia.
Qed.

Lemma convert_raises s e :
  Track._convert_formatted_time_to_ms s = inl e → e = ValueError.
Proof.
  unfold Track._convert_formatted_time_to_ms, strptime_HMS.
  repeat case_match; simpl; congruence.
Qed.

Lemma convert_rejects s :
  (¬ ∃ H M S, time_format s H M S) →
  Track._convert_formatted_time_to_ms s = inl ValueError.
Proof.
  intros Hno. destruct (Track._convert_formatted_time_to_ms s) as [e|v] eqn:E.
  - by rewrite (convert_raises s e E).
  - destruct Hno. apply convert_iff in E as (H & M & S & ? & _). eauto.
Qed.

Lemma convert_optional_iff o ms :
  Track.convert_optional o = inr ms ↔ converted o ms.
Proof.
  unfold Track.convert_optional, converted. destruct o as [s|].
  - destruct (Track._convert_formatted_time_to_ms s) as [e|v] eqn:E; simpl.
    + split; [done|]. intros (H & M & S & Hf & ->).
      assert (Track._convert_formatted_time_to_ms s
              = inr ((S + 60 * M + 3600 * H) * 1000)) by (apply convert_iff; eauto).
      congruence.
    + apply convert_iff in E as (H & M & S & Hf & ->). split.
      * intros [= <-]. eauto.
      * intros (H' & M' & S' & Hf' & ->).
        assert (E1 : Track._convert_formatted_time_to_ms s
                     = inr ((S + 60 * M + 3600 * H) * 1000)) by (apply convert_iff; eauto).
        assert (E2 : Track._convert_formatted_time_to_ms s
                     = inr ((S' + 60 * M' + 3600 * H') * 1000)) by (apply convert_iff; eauto).
        congruence.
  - split; intros; simplify_eq; done.
Qed.



(** ** Volume fades *)

Lemma set_volume_for_step env s p volume sg n seconds V0 step d i w :
  current_player (self s) = Some p →
  0 <= i < n →
  new_volume V0 step i = inr w →
  py_truediv seconds n = inr d →
  set_volume_for (fade_frame volume sg n seconds V0 step i) env s
  = (with_trace (trace s ++ [SetVolume p w; Sleep d]) s,
     Await (fade_frame volume sg n seconds V0 step i)).
Proof.
  intros Hp Hi Hw Hd. unfold set_volume_for. simpl.
  replace (i <? n) with true by (symmetry; apply Z.ltb_lt; lia).
  coro_unfold. simpl. rewrite Hw. simpl. rewrite Hp. simpl. rewrite Hd. simpl.
  unfold with_trace.
  by rewrite <- app_assoc.
Qed.

Lemma set_volume_global_run env s volume sg :
  set_volume_global volume sg env s
  = (if sg then
       {| self := set_volume_attr volume (self s); tasks := tasks s;
          players := players s;
          trace := trace s ++ [Log Debug ("Changed music volume to " +:+ pretty volume)] |}
     else s, Val tt).
Proof. unfold set_volume_global. destruct sg; [|done]. by coro_unfold. Qed.


Lemma comprehension_length {A B} (f : A → exn + B) l bs :
  comprehension f l = inr bs → length bs = length l.
Proof.
  revert bs. induction l as [|x l IH]; intros bs; simpl.
  - by intros [= <-].
  - destruct (f x); simpl; [done|].
    destruct (comprehension f l); simpl; [done|]. intros [= <-].
    simpl. f_equal. eauto.
Qed.

Lemma comprehension_lookup {A B} (f : A → exn + B) l bs i a :
  comprehension f l = inr bs → l !! i = Some a →
  ∃ b, bs !! i = Some b ∧ f a = inr b.
Proof.
  revert bs i. induction l as [|x l IH]; intros bs i; simpl; [done|].
  destruct (f x) as [|y] eqn:Ex; simpl; [done|].
  destruct (comprehension f l) as [|ys]; simpl; [done|]. intros [= <-].
  destruct i as [|i]; simpl.
  - intros [= <-]. eauto.
  - intros Hi. eauto.
Qed.

Lemma resume_set_volume_plus k1 k2 env out :
  resume_set_volume (k1 + k2) env out
  = resume_set_volume k2 env (resume_set_volume k1 env out).
Proof.
  revert out. induction k1 as [|k1 IH]; intros out; simpl; [done|].
  destruct out as [s r]; destruct r; simpl;
    [by destruct k2 | by destruct k2 | apply IH | by destruct k2].
Qed.

Lemma fade_events_snoc p d ws w :
  fade_events p d (ws ++ [w]) = fade_events p d ws ++ [SetVolume p w; Sleep d].
Proof. unfold fade_events. by rewrite bind_app. Qed.

Section Fade.
Variables (env env' : Env) (s : State) (p : player).
Variables (volume seconds n : Z) (sg : bool) (step d : float) (ws : list Z).
Let V0 := audio_get_volume env.
Hypothesis Hp : current_player (self s) = Some p.
Hypothesis Hn : 0 < n.
Hypothesis Hstep : py_truediv (V0 - volume) n = inr step.
Hypothesis Hws :
  comprehension (λ i, new_volume V0 step (Z.of_nat i)) (seq 0 (Z.to_nat n))
  = inr ws.
Hypothesis Hd : py_truediv seconds n = inr d.

Lemma fade_write (k : nat) :
  (k < Z.to_nat n)%nat →
  ∃ w, ws !! k = Some w ∧ new_volume V0 step (Z.of_nat k) = inr w.
Proof.
  intros Hk. apply (comprehension_lookup _ _ _ k k Hws).
  by apply lookup_seq.
Qed.

Lemma fade_suspended (k : nat) :
  (k < Z.to_nat n)%nat →
  resume_set_volume k env' (set_volume volume sg true n seconds env s)
  = (with_trace (trace s ++ GetVolume p V0 :: fade_events p d (take (S k) ws)) s,
     Await (fade_frame volume sg n seconds V0 step (Z.of_nat k))).
Proof.
  induction k as [|k IH]; intros Hk.
  - destruct (fade_write 0 Hk) as (w & Hw0 & Hw). simpl.
    unfold set_volume. coro_unfold. simpl. rewrite Hp. simpl.
    fold V0. rewrite Hstep. simpl.
    match goal with |- context [set_volume_for ?fr ?e ?st] =>
      change fr with (fade_frame volume sg n seconds V0 step 0);
      rewrite (set_volume_for_step e st p volume sg n seconds V0 step d 0 w)
        by (try done; lia)
    end.
    simpl. unfold with_trace. simpl. do 2 f_equal.
    rewrite <- app_assoc. simpl. do 2 f_equal.
    destruct ws as [|w' ws']; by simplify_eq/=.
  - replace (S k) with (k + 1)%nat by lia.
    rewrite resume_set_volume_plus, IH by lia. simpl.
    destruct (fade_write (k + 1)) as (w & Hwk & Hw); [lia|].
    unfold set_volume_resume. coro_unfold.
    change (next_iteration (fade_frame volume sg n seconds V0 step (Z.of_nat k)))
      with (fade_frame volume sg n seconds V0 step (Z.of_nat k + 1)).
    replace (Z.of_nat k + 1) with (Z.of_nat (k + 1)) by lia.
    rewrite (set_volume_for_step _ _ p volume sg n seconds V0 step d _ w)
      by (try done; lia).
    unfold with_trace. simpl. f_equal.
    f_equal. rewrite <- app_assoc. simpl. do 2 f_equal.
    rewrite <- fade_events_snoc. f_equal.
    replace (k + 1)%nat with (S k) in * by lia.
    by rewrite (take_S_r _ _ _ Hwk).
Qed.

Lemma fade_completed :
  resume_set_volume (Z.to_nat n) env' (set_volume volume sg true n seconds env s)
  = set_volume_global volume sg env'
      (with_trace (trace s ++ GetVolume p V0 :: fade_events p d ws) s).
Proof.
  assert (Hlen : length ws = Z.to_nat n).
  { rewrite (comprehension_length _ _ _ Hws). apply length_seq. }
  replace (Z.to_nat n) with ((Z.to_nat n - 1) + 1)%nat at 1 by lia.
  rewrite resume_set_volume_plus, fade_suspended by lia. simpl.
  replace (S (Z.to_nat n - 1)) with (length ws) by lia. rewrite firstn_all.
  unfold set_volume_resume, set_volume_for. coro_unfold. simpl.
  replace (Z.of_nat (Z.to_nat n - 1) + 1 <? n) with false
    by (symmetry; apply Z.ltb_ge; lia).
  done.
Qed.
End Fade.

Lemma forallb_seq2 (f : nat → nat → bool) (n m : nat) :
  forallb (λ a, forallb (f a) (seq 0 m)) (seq 0 n) = true →
  ∀ a b, (a < n)%nat → (b < m)%nat → f a b = true.
Proof.
  intros Hall a b Ha Hb. rewrite forallb_forall in Hall.
  specialize (Hall a). rewrite forallb_forall in Hall.
  apply Hall; apply in_seq; lia.
Qed.

Lemma fade_reaches_default :
  forallb (λ a, forallb (λ b, fade_reaches (Z.of_nat a) (Z.of_nat b)) (seq 0 101))
    (seq 0 101) = true.
Proof. vm_compute. reflexivity. Qed.

Lemma fade_writes_inv (V0 volume n : Z) (ws : list Z) :
  fade_writes V0 volume n = inr ws →
  ∃ step, py_truediv (V0 - volume) n = inr step
          ∧ comprehension (λ i, new_volume V0 step (Z.of_nat i))
              (seq 0 (Z.to_nat n)) = inr ws.
Proof.
  unfold fade_writes. destruct (py_truediv (V0 - volume) n) as [|step]; [done|].
  intros H. exists step. split; [done|exact H].
Qed.

Lemma fade_reaches_target (V0 volume : Z) (ws : list Z) :
  0 <= V0 <= 100 → 0 <= volume <= 100 →
  fade_writes V0 volume 20 = inr ws → last ws = Some volume.
Proof.
  intros HV Hv Hws.
  pose proof (forallb_seq2 (λ a b, fade_reaches (Z.of_nat a) (Z.of_nat b))
                101 101 fade_reaches_default (Z.to_nat V0) (Z.to_nat volume))
    as Hok.
  simpl in Hok. rewrite !Z2Nat.id in Hok by lia.
  specialize (Hok ltac:(lia) ltac:(lia)).
  unfold fade_reaches in Hok.
  apply fade_writes_inv in Hws as (step & Hstep & Hws). rewrite Hstep in Hok.
  change (Z.to_nat 20) with 20%nat in Hws.
  destruct (comprehension_lookup _ _ _ 19%nat 19%nat Hws) as (w & Hw & Hnv); [done|].
  change (Z.of_nat 19) with 19 in Hnv. rewrite Hnv in Hok.
  apply Z.eqb_eq in Hok. subst w.
  rewrite last_lookup.
  rewrite (comprehension_length _ _ _ Hws). by rewrite length_seq.
Qed.

Lemma volume_writes_fade p d ws : volume_writes (fade_events p d ws) = ws.
Proof.
  induction ws as [|w ws IH]; [done|].
  unfold fade_events in *. rewrite bind_cons. simpl. by f_equal.
Qed.




(** ** Running coroutine code step by step *)

Section Wp.
Context {F A : Type} (env : Env) (s : State) (Q : State → result F A → Prop).

Lemma wp_ret a : Q s (Val a) → wp (mret a) env s Q.
Proof. done. Qed.
Lemma wp_raise e : Q s (Raise e) → wp (raise e) env s Q.
Proof. done. Qed.
Lemma wp_spin : Q s Spin → wp spin env s Q.
Proof. done. Qed.
Lemma wp_lift (x : exn + A) :
  match x with inl e => Q s (Raise e) | inr a => Q s (Val a) end →
  wp (lift x) env s Q.
Proof. by destruct x. Qed.
Lemma wp_bind {B} (m : coro F B) (k : B → coro F A) :
  wp m env s (bindQ k env Q) → wp (m ≫= k) env s Q.
Proof.
  unfold wp, bindQ, mbind, coro_bind. by destruct (m env s) as [s' []].
Qed.
Lemma wp_except (m handler : coro F A) E :
  wp m env s (exceptQ E handler env Q) → wp (except m E handler) env s Q.
Proof.
  unfold wp, exceptQ, except. destruct (m env s) as [s' []]; try done.
  simpl. by case_decide.
Qed.
Lemma wp_await_coro {G} (inside : G → F) (m : coro G A) :
  wp m env s (insideQ inside Q) → wp (await_coro inside m) env s Q.
Proof.
  unfold wp, insideQ, await_coro. by destruct (m env s) as [s' []].
Qed.
Lemma wp_mono (m : coro F A) (P : State → result F A → Prop) :
  wp m env s P → (∀ s' r, P s' r → Q s' r) → wp m env s Q.
Proof. unfold wp. eauto. Qed.
End Wp.

Section WpPrim.
Context {F : Type} (env : Env) (s : State).

Lemma wp_await (Q : State → result F unit → Prop) fr :
  Q s (Await fr) → wp (await fr) env s Q.
Proof. done. Qed.
Lemma wp_ask (Q : State → result F Env → Prop) :
  Q s (Val env) → wp ask env s Q.
Proof. done. Qed.
Lemma wp_get_self (Q : State → result F MusicManager.t → Prop) :
  Q s (Val (self s)) → wp get_self env s Q.
Proof. done. Qed.
Lemma wp_assign (Q : State → result F unit → Prop) f :
  Q (set_self f s) (Val tt) → wp (assign f) env s Q.
Proof. done. Qed.
Lemma wp_emit (Q : State → result F unit → Prop) ev :
  Q (push ev s) (Val tt) → wp (emit ev) env s Q.
Proof. done. Qed.
Lemma wp_sleep (Q : State → result F unit → Prop) d fr :
  Q (push (Sleep d) s) (Await fr) → wp (sleep d fr) env s Q.
Proof. done. Qed.
Lemma wp_new_player (Q : State → result F player → Prop) path :
  Q (alloc path s) (Val (players s)) → wp (new_player path) env s Q.
Proof. done. Qed.
Lemma wp_create_task (Q : State → result F nat → Prop) g tl :
  Q (spawned g tl s) (Val (length (tasks s))) → wp (create_task g tl) env s Q.
Proof. done. Qed.
Lemma wp_task_cancel (Q : State → result F unit → Prop) i :
  Q (cancel_requested i s) (Val tt) → wp (task_cancel i) env s Q.
Proof. done. Qed.
Lemma wp_the_player (Q : State → result F player → Prop) :
  match current_player (self s) with
  | Some p => Q s (Val p)
  | None => Q s (Raise AttributeError)
  end → wp the_player env s Q.
Proof. unfold wp, the_player. coro_unfold. by destruct (current_player (self s)). Qed.
End WpPrim.

Ltac state_simpl_in x :=
  eval cbn [self tasks players trace push set_self alloc spawned
            cancel_requested with_trace with_tasks
            volume directory groups currently_playing current_player
            set_volume_attr set_currently_playing set_current_player fst snd] in x.

Ltac wp_scrutinee x :=
  let x' := state_simpl_in x in
  change x with x';
  first [ progress cbv beta iota
        | match goal with H : x' = _ |- _ => rewrite H end
        | destruct x' eqn:? ].

Ltac wp_step :=
  cbv beta iota delta [bindQ exceptQ insideQ];
  lazymatch goal with
  | |- wp (mbind _ _) _ _ _ => apply wp_bind
  | |- wp (mret _) _ _ _ => apply wp_ret
  | |- wp (raise _) _ _ _ => apply wp_raise
  | |- wp spin _ _ _ => apply wp_spin
  | |- wp (await _) _ _ _ => apply wp_await
  | |- wp ask _ _ _ => apply wp_ask
  | |- wp get_self _ _ _ => apply wp_get_self
  | |- wp (assign _) _ _ _ => apply wp_assign
  | |- wp (emit _) _ _ _ => apply wp_emit
  | |- wp (sleep _ _) _ _ _ => apply wp_sleep
  | |- wp (new_player _) _ _ _ => apply wp_new_player
  | |- wp (create_task _ _) _ _ _ => apply wp_create_task
  | |- wp (task_cancel _) _ _ _ => apply wp_task_cancel
  | |- wp the_player _ _ _ => apply wp_the_player
  | |- wp (lift _) _ _ _ => apply wp_lift
  | |- wp (except _ _ _) _ _ _ => apply wp_except
  | |- wp (await_coro _ _) _ _ _ => apply wp_await_coro
  | |- wp (match ?x with _ => _ end) _ _ _ => wp_scrutinee x
  | |- match ?x with _ => _ end => wp_scrutinee x
  end.

Ltac wp_code :=
  repeat first
    [ wp_step
    | progress unfold _play_track_list, try_block, fade_in, fade_out, poll,
        next_track, start_pass, start_track, cleanup, set_volume,
        set_volume_resume, set_volume_for, set_volume_global, cancel,
        cancel_while, cancel_resume, play_track_list, play_track_list_spawn,
        play_track_list_resume, call, call_resume ].

Lemma run_wp {F A} (m : coro F A) env s (Q : State → result F A → Prop) :
  wp m env s Q → Q (m env s).1 (m env s).2.
Proof. done. Qed.

(** ** One run of the session *)

Ltac wp_leaf :=
  cbn [self tasks players trace push set_self alloc spawned cancel_requested
       with_trace with_tasks volume directory groups currently_playing
       current_player set_volume_attr set_currently_playing
       set_current_player fst snd] in *.

Lemma session_frame g tl sig fr env s :
  let s' := (_play_track_list g tl sig fr env s).1 in
  tasks s' = tasks s
  ∧ groups (self s') = groups (self s)
  ∧ directory (self s') = directory (self s)
  ∧ (players s ≤ players s')%nat
  ∧ trace s `prefix_of` trace s'.
Proof.
  apply (run_wp _ env s (λ s' _,
    tasks s' = tasks s ∧ groups (self s') = groups (self s)
    ∧ directory (self s') = directory (self s)
    ∧ (players s ≤ players s')%nat ∧ trace s `prefix_of` trace s')).
  destruct fr, sig.
  all: wp_code.
  all: wp_leaf; repeat split; try done; try lia.
  all: repeat apply prefix_app_r; done.
Qed.

Lemma session_volume g tl sig fr env s :
  own_fade fr →
  let out := _play_track_list g tl sig fr env s in
  volume (self out.1) = volume (self s)
  ∧ ∀ fr', out.2 = Await fr' → own_fade fr'.
Proof.
  intros Hown.
  apply (run_wp _ env s (λ s' r,
    volume (self s') = volume (self s) ∧ ∀ fr', r = Await fr' → own_fade fr')).
  destruct fr, sig; simpl in Hown.
  all: wp_code.
  all: wp_leaf; split; try done; try congruence.
  all: intros ? [= <-]; done.
Qed.

Lemma session_outcome g tl sig fr env s :
  let out := _play_track_list g tl sig fr env s in
  match out.2 with
  | Raise CancelledError =>
      (fr = AtStart ∧ sig = Throw ∧ out.1 = s)
      ∨ (currently_playing (self out.1) = None
         ∧ current_player (self out.1) = None
         ∧ last (trace out.1) = Some (cancelled_message tl))
  | Raise _ => currently_playing (self out.1) = currently_playing (self s)
  | Val _ | Spin =>
      currently_playing (self out.1) = currently_playing (self s)
      ∧ current_player (self out.1) = current_player (self s)
  | Await fr' =>
      currently_playing (self out.1) = currently_playing (self s)
      ∧ is_Some (current_player (self out.1))
      ∧ fr' ≠ AtStart
  end.
Proof.
  apply (run_wp _ env s (λ s' r,
    match r with
    | Raise CancelledError =>
        (fr = AtStart ∧ sig = Throw ∧ s' = s)
        ∨ (currently_playing (self s') = None
           ∧ current_player (self s') = None
           ∧ last (trace s') = Some (cancelled_message tl))
    | Raise _ => currently_playing (self s') = currently_playing (self s)
    | Val _ | Spin =>
        currently_playing (self s') = currently_playing (self s)
        ∧ current_player (self s') = current_player (self s)
    | Await fr' =>
        currently_playing (self s') = currently_playing (self s)
        ∧ is_Some (current_player (self s'))
        ∧ fr' ≠ AtStart
    end)).
  destruct fr, sig.
  all: wp_code.
  all: wp_leaf; try done.
  all: try (right; repeat split; try done; by rewrite last_snoc).
  all: try (left; done).
  all: try (repeat split; try done; eauto).
  all: try match goal with |- match ?e with _ => _ end => destruct e; try done end.
Qed.

Lemma live_snoc tr ev p : live (tr ++ [ev]) p = live_after p (live tr p) ev.
Proof. unfold live. by rewrite foldl_app. Qed.

Lemma session_live g tl sig fr env s :
  (∀ p, live (trace s) p = true → current_player (self s) = Some p) →
  (∀ p, current_player (self s) = Some p → (p < players s)%nat) →
  (fr = AtStart → current_player (self s) = None) →
  let s' := (_play_track_list g tl sig fr env s).1 in
  (∀ p, live (trace s') p = true → current_player (self s') = Some p)
  ∧ (∀ p, current_player (self s') = Some p → (p < players s')%nat).
Proof.
  intros Hlive Hfresh Hstart.
  apply (run_wp _ env s (λ s' _,
    (∀ p, live (trace s') p = true → current_player (self s') = Some p)
    ∧ (∀ p, current_player (self s') = Some p → (p < players s')%nat))).
  destruct fr, sig; try specialize (Hstart eq_refl).
  all: wp_code.
  all: wp_leaf; split; try done.
  all: intros q; rewrite ?live_snoc; cbn [live_after]; intros Hq.
  all: repeat case_decide; simplify_eq/=; try done; try lia.
  all: try (rewrite ?andb_false_r, ?andb_true_r in Hq; try done).
  all: try (apply Hlive in Hq; congruence).
  all: try (apply Hfresh in Hq; lia).
  all: by apply Hfresh.
Qed.

Lemma shuffle_from_perm {A} (rnd : nat → nat) (i : nat) (x : list A) :
  shuffle_from rnd i x ≡ₚ x.
Proof.
  revert x. induction i as [|i IH]; intros x; simpl; [done|].
  rewrite IH. unfold swap. repeat case_match; try done.
  by apply Permutation_insert_swap.
Qed.

Lemma random_shuffle_perm {A} (rnd : nat → nat) (x : list A) :
  random_shuffle rnd x ≡ₚ x.
Proof. apply shuffle_from_perm. Qed.

Lemma session_remaining g tl sig fr env s :
  (fr ≠ AtStart → ∃ played, played ++ remaining fr ≡ₚ TrackList.tracks tl) →
  ∀ fr', (_play_track_list g tl sig fr env s).2 = Await fr' →
         ∃ played, played ++ remaining fr' ≡ₚ TrackList.tracks tl.
Proof.
  intros Hfr.
  apply (run_wp _ env s (λ _ r, ∀ fr', r = Await fr' →
    ∃ played, played ++ remaining fr' ≡ₚ TrackList.tracks tl)).
  destruct fr, sig; try specialize (Hfr ltac:(done)).
  all: wp_code.
  all: wp_leaf; intros fr' Hfr'; simplify_eq/=; try done.
  all: first
    [ destruct Hfr as [played Hp]; eexists (played ++ [_]);
      rewrite <- app_assoc; exact Hp
    | exists []; simpl;
      match goal with H : _ = ?t :: ?l |- ?t :: ?l ≡ₚ _ => rewrite <- H end;
      destruct (TrackList.shuffle tl); [apply random_shuffle_perm | done] ].
Qed.

(** ** One run of a client's call *)

Lemma quiet_refl tr : quiet_extension tr tr.
Proof. exists []. by rewrite app_nil_r. Qed.

Lemma quiet_snoc tr tr' ev :
  quiet_extension tr tr' → inert ev → quiet_extension tr (tr' ++ [ev]).
Proof.
  intros (evs & -> & Hevs) Hev. exists (evs ++ [ev]).
  split; [by rewrite app_assoc|]. apply Forall_app. split; [done|].
  by constructor.
Qed.

Lemma quiet_trans tr1 tr2 tr3 :
  quiet_extension tr1 tr2 → quiet_extension tr2 tr3 → quiet_extension tr1 tr3.
Proof.
  intros (e1 & -> & H1) (e2 & -> & H2). exists (e1 ++ e2).
  split; [by rewrite app_assoc|]. by apply Forall_app.
Qed.

Lemma quiet_live tr tr' p : quiet_extension tr tr' → live tr' p = live tr p.
Proof.
  intros (evs & -> & Hevs). induction evs as [|ev evs IH] using rev_ind.
  - by rewrite app_nil_r.
  - apply Forall_app in Hevs as [Hevs Hev]. apply Forall_inv in Hev.
    rewrite app_assoc, live_snoc, IH by done. destruct ev; simpl in *; done.
Qed.

Lemma quiet_prefix tr tr' : quiet_extension tr tr' → tr `prefix_of` tr'.
Proof. intros (evs & -> & _). by apply prefix_app_r. Qed.

Ltac quiet := repeat (apply quiet_snoc; [|exact I]); apply quiet_refl.

Lemma call_effect_start op env s : call_effect s (call op env s).1.
Proof.
  apply (run_wp _ env s (λ s' _, call_effect s s')).
  destruct op.
  all: wp_code.
  all: unfold call_effect; wp_leaf; repeat split; try done; try quiet.
  all: first
    [ by left
    | match goal with
      | |- context [tasks ?s0 !! ?i] =>
          destruct (tasks s0 !! i) eqn:?;
          [right; left; eexists _, _; by repeat split | by left]
      end
    | right; right; eexists _, _; by repeat split ].
Qed.

Lemma call_effect_resume fr env s : call_effect s (call_resume fr env s).1.
Proof.
  apply (run_wp _ env s (λ s' _, call_effect s s')).
  destruct fr as [|[]|]. 
  all: wp_code.
  all: unfold call_effect; wp_leaf; repeat split; try done; try quiet.
  all: first
    [ by left
    | right; right; eexists _, _; by repeat split ].
Qed.

(** ** The loop invariant *)

Lemma run_snoc L script ea :
  run L (script ++ [ea]) = exec ea.1 ea.2 (run L script).
Proof. unfold run. by rewrite foldl_app. Qed.

Lemma request_cancel_status tk : t_status (request_cancel tk) = t_status tk.
Proof. unfold request_cancel. by destruct (done (t_status tk)). Qed.

Lemma invariant_boot m : fresh m → invariant (boot m).
Proof.
  intros [Hcp Hpl]. unfold invariant. simpl.
  split; [done|]. split; [done|]. split; [done|]. split; [done|].
  intros p. by rewrite Hpl.
Qed.

Lemma invariant_call s s' (cs cs' : list (status CallFrame)) :
  call_effect s s' →
  invariant {| state := s; calls := cs |} →
  invariant {| state := s'; calls := cs' |}.
Proof.
  intros (Hg & Hd & Hpl & Hpls & Hq & Hcase) (I1 & I2 & I3 & I4 & I5).
  unfold invariant in *. simpl in *.
  assert (Hlive : ∀ p, live (trace s') p = true → current_player (self s') = Some p).
  { intros p. rewrite (quiet_live _ _ p Hq), Hpl. apply I4. }
  assert (Hfresh : ∀ p, current_player (self s') = Some p → (p < players s')%nat).
  { intros p. rewrite Hpl, Hpls. apply I5. }
  destruct Hcase as [[Ht Hcp] | [(cp & tk & Hcp & Htk & Ht & Hself)
                               | (g & tl & Hcp & Ht & Hself)]].
  - rewrite Ht, Hcp. split; [done|]. split; [by rewrite Hpl|].
    split; [by rewrite Hpl|]. done.
  - rewrite Ht, Hself. repeat split; try done; try (by rewrite <- Hself).
    + intros i tki Hi Halive.
      destruct (decide (i = task cp)) as [->|Hne].
      * eauto.
      * rewrite list_lookup_insert_ne in Hi by done. eauto.
    + intros i tki Hi Hst.
      destruct (decide (i = task cp)) as [->|Hne].
      * rewrite list_lookup_insert_eq in Hi by (by eapply lookup_lt_Some).
        simplify_eq. rewrite request_cancel_status in Hst. eauto.
      * rewrite list_lookup_insert_ne in Hi by done. eauto.
  - assert (Hdone : ∀ i tk, tasks s !! i = Some tk → done (t_status tk) = true).
    { intros i tk Hi. destruct (done (t_status tk)) eqn:Hd'; [done|].
      destruct (I1 i tk Hi Hd') as (cp & Hcp' & _). congruence. }
    rewrite Ht, Hself. simpl. repeat split; try done.
    + intros i tki Hi Halive. apply lookup_app_Some in Hi as [Hi|[Hlen Hi]].
      * rewrite (Hdone i tki Hi) in Halive. done.
      * apply list_lookup_singleton_Some in Hi as [Hi <-].
        eexists. split; [done|]. simpl. lia.
    + intros i tki Hi Hst. by apply I2.
    + intros p Hp. rewrite <- Hpl. by apply Hlive.
    + intros p Hp. apply Hfresh. by rewrite Hpl.
Qed.

Lemma status_of_done {F} (r : result F unit) :
  done (status_of r) = false → (∃ fr, r = Await fr) ∨ r = Spin.
Proof. destruct r; simpl; try done; eauto. Qed.

Lemma invariant_run_task env i L : invariant L → invariant (run_task env i L).
Proof.
  intros Hinv. unfold run_task.
  destruct (tasks (state L) !! i) as [tk|] eqn:Hi; [|done].
  destruct (t_status tk) as [fr| |] eqn:Hst; try done.
  set (sig := if t_must_cancel tk then Throw else Send).
  pose proof (session_frame (t_group tk) (t_track_list tk) sig fr env (state L))
    as (Htasks & _ & _ & _ & _).
  pose proof (session_outcome (t_group tk) (t_track_list tk) sig fr env (state L))
    as Hout.
  destruct Hinv as (I1 & I2 & I3 & I4 & I5).
  pose proof (session_live (t_group tk) (t_track_list tk) sig fr env (state L)
                I4 I5) as Hlive.
  destruct (_play_track_list (t_group tk) (t_track_list tk) sig fr env (state L))
    as [s' r] eqn:Hrun.
  simpl in *.
  destruct Hlive as [Hlive Hfresh].
  { intros ->. by eapply I3. }
  destruct (I1 i tk Hi) as (cp & Hcp & Hcpi); [by rewrite Hst|].
  assert (Hother : ∀ j tkj, j ≠ i → tasks (state L) !! j = Some tkj →
                            done (t_status tkj) = true).
  { intros j tkj Hne Hj. destruct (done (t_status tkj)) eqn:Hd; [done|].
    destruct (I1 j tkj Hj Hd) as (cp' & Hcp' & Hcpj). congruence. }
  assert (Hlt : (i < length (tasks (state L)))%nat) by (by eapply lookup_lt_Some).
  unfold invariant. simpl. rewrite Htasks.
  split; [|split; [|split; [|split]]]; try done.
  - intros j tkj Hj Halive.
    destruct (decide (j = i)) as [->|Hne].
    + rewrite list_lookup_insert_eq in Hj by done. simplify_eq. simpl in Halive.
      exists cp. split; [|done].
      destruct (status_of_done r Halive) as [[fr' ->]| ->].
      * destruct Hout as (-> & _). done.
      * destruct Hout as (-> & _). done.
    + rewrite list_lookup_insert_ne in Hj by done.
      rewrite (Hother j tkj Hne Hj) in Halive. done.
  - intros Hnone. destruct r as [[]|e|fr'|].
    + destruct Hout as (Hcp' & _). congruence.
    + destruct e; try congruence.
      destruct Hout as [(_ & _ & ->)|(_ & ? & _)]; [congruence|done].
    + destruct Hout as (Hcp' & _). congruence.
    + destruct Hout as (Hcp' & _). congruence.
  - intros j tkj Hj Hstj.
    destruct (decide (j = i)) as [->|Hne].
    + rewrite list_lookup_insert_eq in Hj by done. simplify_eq. simpl in Hstj.
      destruct r; simplify_eq/=. by destruct Hout as (_ & _ & ?).
    + rewrite list_lookup_insert_ne in Hj by done.
      pose proof (Hother j tkj Hne Hj) as Hd. rewrite Hstj in Hd. done.
Qed.

Lemma invariant_exec env a L : invariant L → invariant (exec env a L).
Proof.
  intros Hinv. unfold exec. destruct (blocked L); [done|]. destruct a.
  - unfold start_call. pose proof (call_effect_start op env (state L)) as He.
    destruct (call op env (state L)) as [s' r]. destruct L.
    by eapply invariant_call.
  - unfold run_call. destruct (calls L !! j) as [[fr| |]|]; try done.
    pose proof (call_effect_resume fr env (state L)) as He.
    destruct (call_resume fr env (state L)) as [s' r]. destruct L.
    by eapply invariant_call.
  - by apply invariant_run_task.
Qed.

Lemma invariant_reachable m L : fresh m → reachable m L → invariant L.
Proof.
  intros Hm [script ->]. induction script as [|ea script IH] using rev_ind.
  - by apply invariant_boot.
  - rewrite run_snoc. by apply invariant_exec.
Qed.

Lemma reachable_fresh_demo : fresh demo_manager.
Proof. split; reflexivity. Qed.

(** X1: at any moment at most one session task has not finished, and it is
    the task recorded in [currently_playing]. *)
Theorem one_session_at_a_time (m : MusicManager.t) (L : Loop) :
  fresh m → reachable m L →
  (∀ i tk, tasks (state L) !! i = Some tk → done (t_status tk) = false →
           ∃ cp, currently_playing (self (state L)) = Some cp ∧ task cp = i)
  ∧ (∀ i j ti tj, tasks (state L) !! i = Some ti → tasks (state L) !! j = Some tj →
                  done (t_status ti) = false → done (t_status tj) = false →
                  i = j).
Proof.
  intros Hm Hr. destruct (invariant_reachable m L Hm Hr) as (I1 & _).
  split; [exact I1|].
  intros i j ti tj Hi Hj Hdi Hdj.
  destruct (I1 i ti Hi Hdi) as (cp & Hcp & <-).
  destruct (I1 j tj Hj Hdj) as (cp' & Hcp' & <-). congruence.
Qed.

Lemma one_session_at_a_time_witness :
  ∃ cp, currently_playing (self (state demo_started)) = Some cp ∧ task cp = 0%nat.
Proof.
  destruct (one_session_at_a_time demo_manager demo_started) as [H1 _].
  - split; reflexivity.
  - eexists. reflexivity.
  - eapply (H1 0%nat); [vm_compute; reflexivity | reflexivity].
Defined.

Lemma run_task_tasks_length env i L :
  length (tasks (state (run_task env i L))) = length (tasks (state L)).
Proof.
  unfold run_task. destruct (tasks (state L) !! i) as [tk|]; [|done].
  destruct (t_status tk) as [fr| |]; try done.
  pose proof (session_frame (t_group tk) (t_track_list tk)
                (if t_must_cancel tk then Throw else Send) fr env (state L))
    as (Htasks & _).
  destruct (_play_track_list _ _ _ _ _ _) as [s' r]. simpl in *.
  by rewrite length_insert, Htasks.
Qed.

Lemma call_effect_spawn s s' :
  call_effect s s' → length (tasks s') ≠ length (tasks s) →
  ∃ g tl, currently_playing (self s) = None
          ∧ tasks s' = tasks s ++ [new_task g tl]
          ∧ currently_playing (self s')
            = Some {| group := g; track_list := tl; task := length (tasks s) |}.
Proof.
  intros (_ & _ & _ & _ & _ & Hcase) Hlen.
  destruct Hcase as [[Ht _] | [(cp & tk & _ & _ & Ht & _)
                              | (g & tl & Hcp & Ht & Hself)]].
  - by rewrite Ht in Hlen.
  - by rewrite Ht, length_insert in Hlen.
  - exists g, tl. by rewrite Hself.
Qed.

Lemma exec_spawn env a L :
  length (tasks (state (exec env a L))) ≠ length (tasks (state L)) →
  ∃ g tl, currently_playing (self (state L)) = None
          ∧ tasks (state (exec env a L)) = tasks (state L) ++ [new_task g tl]
          ∧ currently_playing (self (state (exec env a L)))
            = Some {| group := g; track_list := tl;
                      task := length (tasks (state L)) |}.
Proof.
  unfold exec. destruct (blocked L); [done|]. destruct a.
  - unfold start_call. pose proof (call_effect_start op env (state L)) as He.
    destruct (call op env (state L)) as [s' r]. simpl in *.
    by apply call_effect_spawn.
  - unfold run_call. destruct (calls L !! j) as [[fr| |]|]; try done.
    pose proof (call_effect_resume fr env (state L)) as He.
    destruct (call_resume fr env (state L)) as [s' r]. simpl in *.
    by apply call_effect_spawn.
  - by rewrite run_task_tasks_length.
Qed.

(** X2: a session task is created only when the previous session is torn
    down: no session recorded, no engine handle, every task finished, no
    player sounding; and the new task is recorded as the session at once. *)
Theorem spawn_after_teardown (m : MusicManager.t) (L : Loop) (env : Env) (a : Action) :
  fresh m → reachable m L →
  length (tasks (state (exec env a L))) ≠ length (tasks (state L)) →
  currently_playing (self (state L)) = None
  ∧ current_player (self (state L)) = None
  ∧ (∀ i tk, tasks (state L) !! i = Some tk → done (t_status tk) = true)
  ∧ (∀ p, live (trace (state L)) p = false)
  ∧ ∃ g tl, tasks (state (exec env a L)) = tasks (state L) ++ [new_task g tl]
            ∧ currently_playing (self (state (exec env a L)))
              = Some {| group := g; track_list := tl;
                        task := length (tasks (state L)) |}.
Proof.
  intros Hm Hr Hlen.
  destruct (invariant_reachable m L Hm Hr) as (I1 & I2 & _ & I4 & _).
  destruct (exec_spawn env a L Hlen) as (g & tl & Hcp & Ht & Hcp').
  split; [done|]. split; [by apply I2|]. split; [|split].
  - intros i tk Hi. destruct (done (t_status tk)) eqn:Hd; [done|].
    destruct (I1 i tk Hi Hd) as (cp & ? & _). congruence.
  - intros p. destruct (live (trace (state L)) p) eqn:Hp; [|done].
    apply I4 in Hp. rewrite (I2 Hcp) in Hp. done.
  - eauto.
Qed.

Lemma spawn_after_teardown_witness :
  currently_playing (self (state (boot demo_manager))) = None
  ∧ ∃ g tl, tasks (state (exec (demo_env true 0) (StartCall (OpPlay 0 0))
                            (boot demo_manager)))
            = [new_task g tl].
Proof.
  destruct (spawn_after_teardown demo_manager (boot demo_manager)
              (demo_env true 0) (StartCall (OpPlay 0 0)))
    as (H1 & _ & _ & _ & g & tl & H2 & _).
  - split; reflexivity.
  - by exists [].
  - vm_compute. lia.
  - split; [exact H1|]. exists g, tl. exact H2.
Defined.

(** X3: at most one player sounds at any moment, and it is the manager's
    engine handle. *)
Theorem one_live_handle (m : MusicManager.t) (L : Loop) :
  fresh m → reachable m L →
  (∀ p, live (trace (state L)) p = true →
        current_player (self (state L)) = Some p)
  ∧ (∀ p q, live (trace (state L)) p = true → live (trace (state L)) q = true →
            p = q).
Proof.
  intros Hm Hr. destruct (invariant_reachable m L Hm Hr) as (_ & _ & _ & I4 & _).
  split; [exact I4|]. intros p q Hp Hq. apply I4 in Hp, Hq. congruence.
Qed.

Lemma one_live_handle_witness :
  live (trace (state demo_started)) 0%nat = true
  ∧ current_player (self (state demo_started)) = Some 0%nat.
Proof.
  destruct (one_live_handle demo_manager demo_started) as [H1 _].
  - split; reflexivity.
  - eexists. reflexivity.
  - split; [vm_compute; reflexivity|]. apply H1. vm_compute. reflexivity.
Defined.

(** ** A session nobody clears *)

Lemma wedged_not_blocked L : wedged L → blocked L = false.
Proof.
  intros [_ Hdone]. unfold blocked. apply not_true_iff_false. intros Hb.
  apply existsb_exists in Hb as (tk & Hin & Hsp).
  apply list_elem_of_In, list_elem_of_lookup in Hin as [i Hi].
  specialize (Hdone i tk Hi). unfold spinning in Hsp.
  by destruct (t_status tk).
Qed.

Lemma request_cancel_done tk : done (t_status tk) = true → request_cancel tk = tk.
Proof. unfold request_cancel. by intros ->. Qed.

Lemma wedged_call s s' (cs cs' : list (status CallFrame)) :
  call_effect s s' →
  wedged {| state := s; calls := cs |} →
  wedged {| state := s'; calls := cs' |}
  ∧ tasks s' = tasks s
  ∧ currently_playing (self s') = currently_playing (self s).
Proof.
  intros (_ & _ & _ & _ & _ & Hcase) [Hcp Hdone]. unfold wedged in *. simpl in *.
  destruct Hcase as [[Ht Hcp'] | [(cp & tk & Hcpe & Htk & Ht & Hself)
                                 | (g & tl & Hnone & _)]].
  - by rewrite Ht, Hcp'.
  - rewrite (request_cancel_done tk) in Ht by eauto.
    rewrite list_insert_id in Ht by done. by rewrite Ht, Hself.
  - rewrite Hnone in Hcp. by destruct Hcp.
Qed.

Lemma wedged_exec env a L :
  wedged L →
  wedged (exec env a L)
  ∧ tasks (state (exec env a L)) = tasks (state L)
  ∧ currently_playing (self (state (exec env a L)))
    = currently_playing (self (state L)).
Proof.
  intros Hw. unfold exec. destruct (blocked L); [done|]. destruct a.
  - unfold start_call. pose proof (call_effect_start op env (state L)) as He.
    destruct (call op env (state L)) as [s' r]. destruct L as [s cs].
    simpl in *. by apply (wedged_call s s' cs).
  - unfold run_call. destruct (calls L !! j) as [[fr| |]|]; try done.
    pose proof (call_effect_resume fr env (state L)) as He.
    destruct (call_resume fr env (state L)) as [s' r]. destruct L as [s cs].
    simpl in *. by apply (wedged_call s s' cs).
  - unfold run_task. destruct (tasks (state L) !! i) as [tk|] eqn:Hi; [|done].
    pose proof (proj2 Hw i tk Hi) as Hdone.
    destruct (t_status tk); simpl in *; done.
Qed.

Lemma wedged_run L script :
  wedged L →
  wedged (run L script)
  ∧ tasks (state (run L script)) = tasks (state L)
  ∧ currently_playing (self (state (run L script)))
    = currently_playing (self (state L)).
Proof.
  intros Hw. induction script as [|ea script IH] using rev_ind; [done|].
  rewrite run_snoc. destruct IH as (Hw' & Ht & Hcp).
  destruct (wedged_exec ea.1 ea.2 _ Hw') as (? & Ht' & Hcp').
  split; [done|]. split; congruence.
Qed.

Lemma call_resume_waits env s fr :
  is_Some (currently_playing (self s)) →
  waits_in_cancel (Suspended fr) →
  (call_resume fr env s).2 = Await fr.
Proof.
  intros [cp Hcp] [[= ->]|(g & tl & [= ->])].
  - apply (run_wp _ env s (λ _ r, r = Await CancelCall)). by wp_code.
  - apply (run_wp _ env s (λ _ r, r = Await (PlayCall (InCancel g tl)))).
    by wp_code.
Qed.

Lemma call_cancel_waits env s :
  is_Some (currently_playing (self s)) →
  (call OpCancel env s).2 = Await CancelCall.
Proof.
  intros [cp Hcp].
  apply (run_wp _ env s (λ _ r, r = Await CancelCall)). by wp_code.
Qed.

Lemma call_play_waits env s gi ti :
  is_Some (currently_playing (self s)) →
  (call (OpPlay gi ti) env s).2 = Raise IndexError
  ∨ ∃ g tl, (call (OpPlay gi ti) env s).2 = Await (PlayCall (InCancel g tl)).
Proof.
  intros [cp Hcp].
  apply (run_wp _ env s (λ _ r, r = Raise IndexError
    ∨ ∃ g tl, r = Await (PlayCall (InCancel g tl)))).
  wp_code; eauto.
  all: match goal with
       | H : py_getitem _ _ = inl ?e |- _ =>
           apply py_getitem_raises in H as [-> _]; by left
       end.
Qed.

Lemma wedged_waits env a L j st :
  wedged L → calls L !! j = Some st → waits_in_cancel st →
  calls (exec env a L) !! j = Some st.
Proof.
  intros Hw Hj Hst. unfold exec. destruct (blocked L); [done|]. destruct a.
  - unfold start_call. destruct (call op env (state L)) as [s' r]. simpl.
    by apply lookup_app_l_Some.
  - unfold run_call. destruct (calls L !! j0) as [[fr| |]|] eqn:Hj0; try done.
    pose proof (call_resume_waits env (state L) fr) as Hres.
    destruct (call_resume fr env (state L)) as [s' r]. simpl in *.
    destruct (decide (j0 = j)) as [->|Hne].
    + simplify_eq. rewrite Hres; [|by destruct Hw|done]. simpl.
      by rewrite list_lookup_insert_eq by (by eapply lookup_lt_Some).
    + by rewrite list_lookup_insert_ne.
  - unfold run_task. destruct (tasks (state L) !! i) as [tk|]; [|done].
    destruct (t_status tk); try done.
    by destruct (_play_track_list _ _ _ _ _ _).
Qed.

Lemma reachable_run m L script : reachable m L → reachable m (run L script).
Proof.
  intros [script0 ->]. exists (script0 ++ script). unfold run.
  by rewrite foldl_app.
Qed.

(** X4: a session task that returns normally (a track list with
    [loop=False] played to its end) does not run the cleanup: the session
    stays recorded in [currently_playing] and the engine handle stays set,
    with no task left to clear them. *)
Theorem return_leaves_session (m : MusicManager.t) (L : Loop) (env : Env)
    (i : nat) (tk : Task) (fr : Frame) :
  fresh m → reachable m L →
  tasks (state L) !! i = Some tk → t_status tk = Suspended fr →
  (∃ tk', tasks (state (exec env (RunTask i) L)) !! i = Some tk'
          ∧ t_status tk' = Finished (inr tt)) →
  let L' := exec env (RunTask i) L in
  wedged L'
  ∧ currently_playing (self (state L')) = currently_playing (self (state L))
  ∧ current_player (self (state L')) = current_player (self (state L)).
Proof.
  intros Hm Hr Hi Hst (tk' & Hi' & Hst') L'.
  destruct (invariant_reachable m L Hm Hr) as (I1 & _).
  destruct (I1 i tk Hi) as (cp & Hcp & Hcpi); [by rewrite Hst|].
  assert (Hother : ∀ j tkj, j ≠ i → tasks (state L) !! j = Some tkj →
                            done (t_status tkj) = true).
  { intros j tkj Hne Hj. destruct (done (t_status tkj)) eqn:Hd; [done|].
    destruct (I1 j tkj Hj Hd) as (cp' & Hcp' & Hcpj). congruence. }
  subst L'. unfold exec in *. destruct (blocked L).
  { rewrite Hi in Hi'. simplify_eq. congruence. }
  unfold run_task in *. rewrite Hi, Hst in *.
  pose proof (session_frame (t_group tk) (t_track_list tk)
                (if t_must_cancel tk then Throw else Send) fr env (state L))
    as (Htasks & _).
  pose proof (session_outcome (t_group tk) (t_track_list tk)
                (if t_must_cancel tk then Throw else Send) fr env (state L))
    as Hout.
  destruct (_play_track_list _ _ _ _ _ _) as [s' r]. simpl in *.
  rewrite Htasks in *.
  rewrite list_lookup_insert_eq in Hi' by (by eapply lookup_lt_Some).
  simplify_eq/=. destruct r as [[]| | |]; simplify_eq/=.
  destruct Hout as [Hcp' Hpl]. split; [|done].
  split; simpl; [by rewrite Hcp', Hcp|].
  intros j tkj Hj. destruct (decide (j = task cp)) as [->|Hne].
  - rewrite list_lookup_insert_eq in Hj by (by eapply lookup_lt_Some).
    by simplify_eq.
  - rewrite list_lookup_insert_ne in Hj by done. eauto.
Qed.

Lemma reachable_demo_played : reachable demo_manager demo_played.
Proof.
  unfold demo_played, demo_started. apply reachable_run, reachable_run.
  by exists [].
Qed.

Lemma return_leaves_session_witness :
  wedged demo_finished
  ∧ current_player (self (state demo_finished)) = Some 1%nat.
Proof.
  edestruct (λ tk fr, return_leaves_session demo_manager demo_played
                        (demo_env false 0) 0%nat tk fr) as (Hw & _ & Hpl).
  - split; reflexivity.
  - exact reachable_demo_played.
  - vm_compute. reflexivity.
  - vm_compute. reflexivity.
  - eexists. split; vm_compute; reflexivity.
  - split; [exact Hw|]. unfold demo_finished. rewrite Hpl.
    vm_compute. reflexivity.
Defined.

(** X5: once a session is recorded with no task left to clear it, it stays
    that way whatever happens next: a later [cancel()] never returns, a
    later [play_track_list] either raises [IndexError] or waits in [cancel]
    for ever, and no new session task is ever created. *)
Theorem wedged_forever (L : Loop) (env : Env) (op : Op)
    (script : list (Env * Action)) :
  wedged L →
  (op = OpCancel ∨ ∃ gi ti, op = OpPlay gi ti) →
  let L' := run (exec env (StartCall op) L) script in
  wedged L'
  ∧ tasks (state L') = tasks (state L)
  ∧ currently_playing (self (state L')) = currently_playing (self (state L))
  ∧ ∃ st, calls L' !! length (calls L) = Some st
          ∧ (waits_in_cancel st ∨ st = Finished (inl IndexError)).
Proof.
  intros Hw Hop L'.
  set (L1 := exec env (StartCall op) L) in *.
  destruct (wedged_exec env (StartCall op) L Hw) as (Hw1 & Ht1 & Hcp1).
  fold L1 in Hw1, Ht1, Hcp1.
  destruct (wedged_run L1 script Hw1) as (Hw' & Ht' & Hcp'). fold L' in Hw', Ht', Hcp'.
  split; [done|]. split; [congruence|]. split; [congruence|].
  assert (Hst1 : ∃ st, calls L1 !! length (calls L) = Some st
            ∧ (waits_in_cancel st ∨ st = Finished (inl IndexError))).
  { subst L1. unfold exec. rewrite (wedged_not_blocked L Hw). unfold start_call.
    destruct Hop as [->|(gi & ti & ->)].
    - pose proof (call_cancel_waits env (state L) (proj1 Hw)) as Hr.
      destruct (call OpCancel env (state L)) as [s' r]. simpl in *. subst r.
      exists (Suspended CancelCall). split; [|by left; left].
      by rewrite lookup_app_r, Nat.sub_diag.
    - pose proof (call_play_waits env (state L) gi ti (proj1 Hw)) as Hr.
      destruct (call (OpPlay gi ti) env (state L)) as [s' r]. simpl in *.
      rewrite lookup_app_r, Nat.sub_diag by done. simpl.
      destruct Hr as [->|(g & tl & ->)]; eexists; (split; [done|]).
      + by right.
      + left. right. eauto. }
  destruct Hst1 as (st & Hst & Hkind).
  exists st. split; [|done]. subst L'.
  clear Hw' Ht' Hcp'. induction script as [|ea script IH] using rev_ind; [done|].
  rewrite run_snoc.
  destruct (wedged_run L1 script Hw1) as (Hws & _).
  destruct Hkind as [Hwait| ->].
  - by apply wedged_waits.
  - set (L2 := run L1 script) in *. unfold exec. destruct (blocked L2); [done|].
    destruct ea.2.
    + unfold start_call. destruct (call op0 ea.1 (state L2)) as [s' r]. simpl.
      by apply lookup_app_l_Some.
    + unfold run_call. destruct (calls L2 !! j) as [[fr| |]|] eqn:Hj; try done.
      destruct (call_resume fr ea.1 (state L2)) as [s' r]. simpl.
      rewrite list_lookup_insert_ne; [done|]. intros ->. congruence.
    + unfold run_task. destruct (tasks (state L2) !! i) as [tk|]; [|done].
      destruct (t_status tk); try done.
      by destruct (_play_track_list _ _ _ _ _ _).
Qed.

Lemma wedged_forever_witness :
  calls (run (exec (demo_env true 0) (StartCall OpCancel) demo_finished)
           (replicate 5 (demo_env true 0, RunCall 1%nat))) !! 1%nat
  = Some (Suspended CancelCall).
Proof.
  destruct (wedged_forever demo_finished (demo_env true 0) OpCancel
              (replicate 5 (demo_env true 0, RunCall 1%nat)))
    as (_ & _ & _ & st & Hst & _).
  - split; [vm_compute; by eexists|]. intros i tk Hi.
    destruct i as [|i]; vm_compute in Hi; [|done]. by injection Hi as <-.
  - by left.
  - vm_compute. reflexivity.
Defined.

(** ** Waiting in [cancel] *)

Lemma snoc_extension {A} (tr tr0 : list A) (ev : A) :
  tr `prefix_of` tr0 → ∃ evs, tr0 ++ [ev] = tr ++ evs ++ [ev].
Proof. intros [evs ->]. exists evs. by rewrite app_assoc. Qed.

Lemma session_cleanup_logged g tl sig fr env s :
  let s' := (_play_track_list g tl sig fr env s).1 in
  is_Some (currently_playing (self s)) →
  currently_playing (self s') = None →
  ∃ evs, trace s' = trace s ++ evs ++ [cancelled_message tl].
Proof.
  apply (run_wp _ env s (λ s' _,
    is_Some (currently_playing (self s)) →
    currently_playing (self s') = None →
    ∃ evs, trace s' = trace s ++ evs ++ [cancelled_message tl])).
  destruct fr, sig.
  all: wp_code.
  all: wp_leaf; intros [cp Hcp] Hnone; try congruence.
  all: unfold cancelled_message; apply snoc_extension.
  all: repeat apply prefix_app_r; done.
Qed.

Lemma exec_prefix env a L :
  trace (state L) `prefix_of` trace (state (exec env a L)).
Proof.
  unfold exec. destruct (blocked L); [done|]. destruct a.
  - unfold start_call. pose proof (call_effect_start op env (state L)) as He.
    destruct (call op env (state L)) as [s' r]. simpl in *.
    destruct He as (_ & _ & _ & _ & Hq & _). by apply quiet_prefix.
  - unfold run_call. destruct (calls L !! j) as [[fr| |]|]; try done.
    pose proof (call_effect_resume fr env (state L)) as He.
    destruct (call_resume fr env (state L)) as [s' r]. simpl in *.
    destruct He as (_ & _ & _ & _ & Hq & _). by apply quiet_prefix.
  - unfold run_task. destruct (tasks (state L) !! i) as [tk|]; [|done].
    destruct (t_status tk) as [fr| |]; try done.
    pose proof (session_frame (t_group tk) (t_track_list tk)
                  (if t_must_cancel tk then Throw else Send) fr env (state L))
      as (_ & _ & _ & _ & Hp).
    by destruct (_play_track_list _ _ _ _ _ _) as [s' r].
Qed.

Lemma call_effect_keeps_session s s' :
  call_effect s s' → is_Some (currently_playing (self s)) →
  is_Some (currently_playing (self s')).
Proof.
  intros (_ & _ & _ & _ & _ & Hcase) [cp Hcp].
  destruct Hcase as [[_ Hcp'] | [(cp' & tk & _ & _ & _ & Hself)
                                | (g & tl & Hnone & _)]].
  - rewrite Hcp'. eauto.
  - rewrite Hself. eauto.
  - congruence.
Qed.

Lemma exec_cleared env a L :
  is_Some (currently_playing (self (state L))) →
  currently_playing (self (state (exec env a L))) = None →
  ∃ tl evs, trace (state (exec env a L))
            = trace (state L) ++ evs ++ [cancelled_message tl].
Proof.
  intros Hcp. unfold exec. destruct (blocked L).
  { intros Hnone. rewrite Hnone in Hcp. by destruct Hcp. }
  destruct a.
  - unfold start_call. pose proof (call_effect_start op env (state L)) as He.
    destruct (call op env (state L)) as [s' r]. simpl in *. intros Hnone.
    destruct (call_effect_keeps_session _ _ He Hcp). congruence.
  - unfold run_call. destruct (calls L !! j) as [[fr| |]|];
      try (intros Hnone; rewrite Hnone in Hcp; by destruct Hcp).
    pose proof (call_effect_resume fr env (state L)) as He.
    destruct (call_resume fr env (state L)) as [s' r]. simpl in *. intros Hnone.
    destruct (call_effect_keeps_session _ _ He Hcp). congruence.
  - unfold run_task. destruct (tasks (state L) !! i) as [tk|];
      [|intros Hnone; rewrite Hnone in Hcp; by destruct Hcp].
    destruct (t_status tk) as [fr| |];
      try (intros Hnone; rewrite Hnone in Hcp; by destruct Hcp).
    pose proof (session_cleanup_logged (t_group tk) (t_track_list tk)
                  (if t_must_cancel tk then Throw else Send) fr env (state L))
      as Hlog.
    destruct (_play_track_list _ _ _ _ _ _) as [s' r]. simpl in *.
    intros Hnone. exists (t_track_list tk). by apply Hlog.
Qed.

Lemma cancel_resume_run env s :
  call_resume CancelCall env s
  = match currently_playing (self s) with
    | Some _ => (push (Sleep SLEEP_TIME) s, Await CancelCall)
    | None => (s, Val tt)
    end.
Proof.
  unfold call_resume, cancel_resume, cancel_while. coro_unfold. simpl.
  by destruct (currently_playing (self s)).
Qed.

Lemma exec_cancel_call env a L j :
  calls L !! j = Some (Suspended CancelCall) →
  calls (exec env a L) !! j = Some (Suspended CancelCall)
  ∨ (calls (exec env a L) !! j = Some (Finished (inr tt))
     ∧ currently_playing (self (state L)) = None
     ∧ state (exec env a L) = state L).
Proof.
  intros Hj. unfold exec. destruct (blocked L); [by left|]. destruct a.
  - left. unfold start_call. destruct (call op env (state L)) as [s' r]. simpl.
    by apply lookup_app_l_Some.
  - unfold run_call. destruct (calls L !! j0) as [[fr| |]|] eqn:Hj0;
      try by left.
    destruct (decide (j0 = j)) as [->|Hne].
    + simplify_eq. rewrite cancel_resume_run.
      destruct (currently_playing (self (state L))); simpl.
      * left. by rewrite list_lookup_insert_eq by (by eapply lookup_lt_Some).
      * right. by rewrite list_lookup_insert_eq by (by eapply lookup_lt_Some).
    + left. destruct (call_resume fr env (state L)) as [s' r]. simpl.
      by rewrite list_lookup_insert_ne.
  - left. unfold run_task. destruct (tasks (state L) !! i) as [tk|]; [|done].
    destruct (t_status tk); try done.
    by destruct (_play_track_list _ _ _ _ _ _).
Qed.

Lemma exec_finished_call env a L j r :
  calls L !! j = Some (Finished r) →
  calls (exec env a L) !! j = Some (Finished r).
Proof.
  intros Hj. unfold exec. destruct (blocked L); [done|]. destruct a.
  - unfold start_call. destruct (call op env (state L)) as [s' r']. simpl.
    by apply lookup_app_l_Some.
  - unfold run_call. destruct (calls L !! j0) as [[fr| |]|] eqn:Hj0; try done.
    destruct (call_resume fr env (state L)) as [s' r']. simpl.
    rewrite list_lookup_insert_ne; [done|]. intros ->. congruence.
  - unfold run_task. destruct (tasks (state L) !! i) as [tk|]; [|done].
    destruct (t_status tk); try done.
    by destruct (_play_track_list _ _ _ _ _ _).
Qed.

Lemma cancel_call_run env s :
  call OpCancel env s
  = match currently_playing (self s) with
    | Some cp => (push (Sleep SLEEP_TIME) (cancel_requested (task cp) s),
                  Await CancelCall)
    | None => (s, Val tt)
    end.
Proof.
  unfold call, cancel, cancel_while. coro_unfold. simpl.
  destruct (currently_playing (self s)) as [cp|] eqn:Hcp; [|done].
  simpl. by rewrite Hcp.
Qed.

Lemma cleanup_since_prefix tr0 tr tr' :
  cleanup_since tr0 tr → tr `prefix_of` tr' → cleanup_since tr0 tr'.
Proof.
  intros (tl & evs1 & evs2 & ->) [evs ->]. exists tl, evs1, (evs2 ++ evs).
  by rewrite <- !app_assoc.
Qed.

(** X6: [cancel()] with a session recorded asks the recorded task to stop
    and suspends; it returns, with no result, only in a state where
    [currently_playing] is [None], and by then a session's cleanup has run
    since the call: its "Cancelled" line is in the log after the call's
    start. *)
Theorem cancel_returns_after_cleanup (L : Loop) (env : Env)
    (script : list (Env * Action)) (cp : CurrentlyPlaying) :
  currently_playing (self (state L)) = Some cp →
  blocked L = false →
  let L1 := exec env (StartCall OpCancel) L in
  let j := length (calls L) in
  calls L1 !! j = Some (Suspended CancelCall)
  ∧ tasks (state L1) = tasks (cancel_requested (task cp) (state L))
  ∧ ∀ r, calls (run L1 script) !! j = Some (Finished r) →
         r = inr tt
         ∧ cleanup_since (trace (state L1)) (trace (state (run L1 script))).
Proof.
  intros Hcp Hb L1 j.
  assert (HL1 : L1 = {| state := push (Sleep SLEEP_TIME)
                                   (cancel_requested (task cp) (state L));
                        calls := calls L ++ [Suspended CancelCall] |}).
  { subst L1. unfold exec. rewrite Hb. unfold start_call.
    by rewrite cancel_call_run, Hcp. }
  assert (Hj : calls L1 !! j = Some (Suspended CancelCall)).
  { rewrite HL1. simpl. subst j. by rewrite lookup_app_r, Nat.sub_diag. }
  split; [done|]. split; [by rewrite HL1|].
  assert (Hcp1 : is_Some (currently_playing (self (state L1))))
    by (rewrite HL1; simpl; eauto).
  clearbody L1. clear HL1.
  assert (Hinv : trace (state L1) `prefix_of` trace (state (run L1 script))
    ∧ ((calls (run L1 script) !! j = Some (Suspended CancelCall)
        ∧ (is_Some (currently_playing (self (state (run L1 script))))
           ∨ cleanup_since (trace (state L1)) (trace (state (run L1 script)))))
       ∨ (calls (run L1 script) !! j = Some (Finished (inr tt))
          ∧ cleanup_since (trace (state L1)) (trace (state (run L1 script)))))).
  { induction script as [|ea script IH] using rev_ind.
    - split; [done|]. left. split; [done|]. by left.
    - rewrite run_snoc. set (L2 := run L1 script) in *.
      destruct IH as [Hpre IH].
      pose proof (exec_prefix ea.1 ea.2 L2) as Hstep.
      split; [by etrans|].
      destruct IH as [[Hsusp Hor]|[Hfin Hlog]].
      + destruct (exec_cancel_call ea.1 ea.2 L2 j Hsusp)
          as [Hs|(Hf & Hnone & Hsame)].
        * left. split; [done|].
          destruct Hor as [Hsome|Hlog]; [|right; by eapply cleanup_since_prefix].
          destruct (currently_playing (self (state (exec ea.1 ea.2 L2))))
            as [cp'|] eqn:Hcp'; [left; eauto|].
          right. destruct (exec_cleared ea.1 ea.2 L2 Hsome Hcp') as (tl & evs & Heq).
          destruct Hpre as [evs0 Hpre]. exists tl, (evs0 ++ evs), [].
          rewrite Heq, Hpre. by rewrite <- !app_assoc.
        * right. split; [done|]. rewrite Hsame.
          destruct Hor as [Hsome|Hlog]; [|done].
          rewrite Hnone in Hsome. by destruct Hsome.
      + right. split; [by apply exec_finished_call|].
        by eapply cleanup_since_prefix. }
  intros r Hr. destruct Hinv as [_ [[Hsusp _]|[Hfin Hlog]]]; [congruence|].
  split; [congruence|done].
Qed.

Lemma cancel_returns_after_cleanup_witness :
  let L1 := exec (demo_env true 0) (StartCall OpCancel) demo_started in
  let L2 := run L1 [(demo_env true 0, RunTask 0%nat);
                    (demo_env true 0, RunCall 1%nat)] in
  calls L2 !! 1%nat = Some (Finished (inr tt))
  ∧ cleanup_since (trace (state L1)) (trace (state L2)).
Proof.
  intros L1 L2.
  edestruct (λ cp, cancel_returns_after_cleanup demo_started (demo_env true 0)
               [(demo_env true 0, RunTask 0%nat); (demo_env true 0, RunCall 1%nat)]
               cp) as (_ & _ & Hret).
  - vm_compute. reflexivity.
  - vm_compute. reflexivity.
  - assert (Hfin : calls L2 !! 1%nat = Some (Finished (inr tt)))
      by (vm_compute; reflexivity).
    split; [exact Hfin|]. exact (proj2 (Hret (inr tt) Hfin)).
Defined.

(** ** The global volume *)

Lemma call_volume_start op env s :
  let out := call op env s in
  (volume (self out.1) = volume (self s)
   ∨ ∃ v sm n sec, op = OpSetVolume v true sm n sec ∧ volume (self out.1) = v)
  ∧ ∀ f, out.2 = Await (SetVolumeCall f) →
         ∃ v sg sm n sec, op = OpSetVolume v sg sm n sec
                          ∧ f_volume f = v ∧ f_set_global f = sg.
Proof.
  apply (run_wp _ env s (λ s' r,
    (volume (self s') = volume (self s)
     ∨ ∃ v sm n sec, op = OpSetVolume v true sm n sec ∧ volume (self s') = v)
    ∧ ∀ f, r = Await (SetVolumeCall f) →
           ∃ v sg sm n sec, op = OpSetVolume v sg sm n sec
                            ∧ f_volume f = v ∧ f_set_global f = sg)).
  destruct op.
  all: wp_code.
  all: wp_leaf; split; try (by left); try done.
  all: try (right; by eexists _, _, _, _).
  all: intros ? [= <-]; by eexists _, _, _, _, _.
Qed.

Lemma call_volume_resume fr env s :
  let out := call_resume fr env s in
  (volume (self out.1) = volume (self s)
   ∨ ∃ f, fr = SetVolumeCall f ∧ f_set_global f = true
          ∧ volume (self out.1) = f_volume f)
  ∧ ∀ f', out.2 = Await (SetVolumeCall f') →
          ∃ f, fr = SetVolumeCall f ∧ f_volume f' = f_volume f
               ∧ f_set_global f' = f_set_global f.
Proof.
  apply (run_wp _ env s (λ s' r,
    (volume (self s') = volume (self s)
     ∨ ∃ f, fr = SetVolumeCall f ∧ f_set_global f = true
            ∧ volume (self s') = f_volume f)
    ∧ ∀ f', r = Await (SetVolumeCall f') →
            ∃ f, fr = SetVolumeCall f ∧ f_volume f' = f_volume f
                 ∧ f_set_global f' = f_set_global f)).
  destruct fr as [|[]|].
  all: wp_code.
  all: wp_leaf; split; try (by left); try done.
  all: try (right; by eexists).
  all: intros ? [= <-]; by eexists.
Qed.

Lemma call_effect_own_fade s s' :
  call_effect s s' →
  (∀ i tk fr, tasks s !! i = Some tk → t_status tk = Suspended fr → own_fade fr) →
  (∀ i tk fr, tasks s' !! i = Some tk → t_status tk = Suspended fr → own_fade fr).
Proof.
  intros (_ & _ & _ & _ & _ & Hcase) Hown i tki fr Hi Hst.
  destruct Hcase as [[Ht _] | [(cp & tk & _ & Htk & Ht & _)
                              | (g & tl & _ & Ht & _)]].
  - rewrite Ht in Hi. eauto.
  - rewrite Ht in Hi. destruct (decide (i = task cp)) as [->|Hne].
    + rewrite list_lookup_insert_eq in Hi by (by eapply lookup_lt_Some).
      simplify_eq. rewrite request_cancel_status in Hst. eauto.
    + rewrite list_lookup_insert_ne in Hi by done. eauto.
  - rewrite Ht in Hi. apply lookup_app_Some in Hi as [Hi|[_ Hi]]; [eauto|].
    apply list_lookup_singleton_Some in Hi as [_ <-]. by simplify_eq/=.
Qed.

Lemma volume_invariant_exec ea L :
  asks_in_range ea → volume_invariant L → volume_invariant (exec ea.1 ea.2 L).
Proof.
  destruct ea as [env a]. unfold asks_in_range. simpl.
  intros Hask (Hv & Hcalls & Hown). unfold exec.
  destruct (blocked L); [done|]. destruct a.
  - unfold start_call. pose proof (call_effect_start op env (state L)) as He.
    pose proof (call_volume_start op env (state L)) as [Hvol Hfr].
    destruct (call op env (state L)) as [s' r].
    unfold volume_invariant. simpl in *.
    split; [|split].
    + destruct Hvol as [->|(v & sm & n & sec & -> & ->)]; done.
    + simpl. intros j f Hj Hsg. apply lookup_app_Some in Hj as [Hj|[_ Hj]]; [eauto|].
      apply list_lookup_singleton_Some in Hj as [_ Hj].
      destruct r; simplify_eq/=.
      destruct (Hfr f eq_refl) as (v & sg & sm & n & sec & -> & <- & <-).
      by rewrite Hsg in Hask.
    + simpl. by eapply call_effect_own_fade.
  - unfold run_call. destruct (calls L !! j) as [[fr| |]|] eqn:Hj; try done.
    pose proof (call_effect_resume fr env (state L)) as He.
    pose proof (call_volume_resume fr env (state L)) as [Hvol Hfr].
    destruct (call_resume fr env (state L)) as [s' r].
    unfold volume_invariant. simpl in *.
    split; [|split].
    + destruct Hvol as [->|(f & -> & Hsg & ->)]; eauto.
    + simpl. intros j' f' Hj' Hsg. destruct (decide (j' = j)) as [->|Hne].
      * rewrite list_lookup_insert_eq in Hj' by (by eapply lookup_lt_Some).
        destruct r; simplify_eq/=.
        destruct (Hfr f' eq_refl) as (f & -> & -> & Hsg').
        rewrite Hsg' in Hsg. eauto.
      * rewrite list_lookup_insert_ne in Hj' by done. eauto.
    + simpl. by eapply call_effect_own_fade.
  - unfold run_task. destruct (tasks (state L) !! i) as [tk|] eqn:Hi; [|done].
    destruct (t_status tk) as [fr| |] eqn:Hst; try done.
    pose proof (session_frame (t_group tk) (t_track_list tk)
                  (if t_must_cancel tk then Throw else Send) fr env (state L))
      as (Htasks & _).
    pose proof (session_volume (t_group tk) (t_track_list tk)
                  (if t_must_cancel tk then Throw else Send) fr env (state L)
                  (Hown i tk fr Hi Hst)) as [Hvol Hfr].
    destruct (_play_track_list _ _ _ _ _ _) as [s' r].
    unfold volume_invariant. simpl in *.
    split; [by rewrite Hvol|]. split; [done|].
    intros j tkj frj Hj Hstj. rewrite Htasks in Hj.
    destruct (decide (j = i)) as [->|Hne].
    + rewrite list_lookup_insert_eq in Hj by (by eapply lookup_lt_Some).
      simplify_eq/=. destruct r; simplify_eq/=. eauto.
    + rewrite list_lookup_insert_ne in Hj by done. eauto.
Qed.



(** ** The configuration *)

Lemma py_getitem_elem {A} (seq : list A) (i : Z) (x : A) :
  py_getitem seq i = inr x → x ∈ seq.
Proof.
  unfold py_getitem. repeat case_match; try done; intros [= <-];
    by eapply list_elem_of_lookup_2.
Qed.

Lemma call_configured_start op env s :
  let out := call op env s in
  (∀ g tl, out.2 = Await (PlayCall (InCancel g tl)) → configured (self s) g tl)
  ∧ (∀ g tl, tasks out.1 = tasks s ++ [new_task g tl] → configured (self s) g tl).
Proof.
  apply (run_wp _ env s (λ s' r,
    (∀ g tl, r = Await (PlayCall (InCancel g tl)) → configured (self s) g tl)
    ∧ (∀ g tl, tasks s' = tasks s ++ [new_task g tl] → configured (self s) g tl))).
  destruct op.
  all: wp_code.
  all: wp_leaf; split; intros g' tl' Heq; simplify_eq; try done.
  all: try (apply (f_equal length) in Heq; rewrite length_app in Heq;
            simpl in Heq; lia).
  all: try (split; by eapply py_getitem_elem).
  all: try (apply app_inv_head in Heq; simplify_eq;
            split; by eapply py_getitem_elem).
  all: try (case_match; apply (f_equal length) in Heq;
            rewrite length_app, ?length_insert in Heq; simpl in Heq; lia).
Qed.

Lemma call_configured_resume fr env s :
  let out := call_resume fr env s in
  (∀ g tl, out.2 = Await (PlayCall (InCancel g tl)) →
           fr = PlayCall (InCancel g tl))
  ∧ (∀ g tl, tasks out.1 = tasks s ++ [new_task g tl] →
             fr = PlayCall (InCancel g tl)).
Proof.
  apply (run_wp _ env s (λ s' r,
    (∀ g tl, r = Await (PlayCall (InCancel g tl)) → fr = PlayCall (InCancel g tl))
    ∧ (∀ g tl, tasks s' = tasks s ++ [new_task g tl] →
               fr = PlayCall (InCancel g tl)))).
  destruct fr as [|[]|].
  all: wp_code.
  all: wp_leaf; split; intros g' tl' Heq; simplify_eq; try done.
  all: try (apply (f_equal length) in Heq; rewrite length_app in Heq;
            simpl in Heq; lia).
  all: try (apply app_inv_head in Heq; by simplify_eq).
Qed.

Lemma configured_groups m m' g tl :
  groups m' = groups m → configured m' g tl → configured m g tl.
Proof. unfold configured. by intros ->. Qed.

Lemma request_cancel_bound tk :
  t_group (request_cancel tk) = t_group tk
  ∧ t_track_list (request_cancel tk) = t_track_list tk.
Proof. unfold request_cancel. by destruct (done (t_status tk)). Qed.

Lemma plays_copy_request_cancel tk : plays_copy tk → plays_copy (request_cancel tk).
Proof.
  unfold plays_copy. destruct (request_cancel_bound tk) as [_ ->].
  by rewrite request_cancel_status.
Qed.

Lemma plays_copy_new_task g tl : plays_copy (new_task g tl).
Proof.
  intros fr [= <-]. exists (TrackList.tracks tl). simpl. by rewrite app_nil_r.
Qed.

Lemma config_invariant_tasks m s s' :
  call_effect s s' →
  groups (self s) = groups m →
  (∀ g tl, tasks s' = tasks s ++ [new_task g tl] → configured m g tl) →
  (∀ i tk, tasks s !! i = Some tk →
           configured m (t_group tk) (t_track_list tk) ∧ plays_copy tk) →
  (∀ i tk, tasks s' !! i = Some tk →
           configured m (t_group tk) (t_track_list tk) ∧ plays_copy tk).
Proof.
  intros (_ & _ & _ & _ & _ & Hcase) Hg Hnew Hold i tki Hi.
  destruct Hcase as [[Ht _] | [(cp & tk & _ & Htk & Ht & _)
                              | (g & tl & _ & Ht & _)]].
  - rewrite Ht in Hi. eauto.
  - rewrite Ht in Hi. destruct (decide (i = task cp)) as [->|Hne].
    + rewrite list_lookup_insert_eq in Hi by (by eapply lookup_lt_Some).
      simplify_eq. destruct (request_cancel_bound tk) as [-> ->].
      destruct (Hold _ _ Htk). split; [done|]. by apply plays_copy_request_cancel.
    + rewrite list_lookup_insert_ne in Hi by done. eauto.
  - specialize (Hnew g tl Ht). rewrite Ht in Hi.
    apply lookup_app_Some in Hi as [Hi|[_ Hi]]; [eauto|].
    apply list_lookup_singleton_Some in Hi as [_ <-].
    split; [done|]. apply plays_copy_new_task.
Qed.

Lemma config_invariant_exec m env a L :
  config_invariant m L → config_invariant m (exec env a L).
Proof.
  intros Hinv. pose proof Hinv as (Hg & Hd & Htasks & Hcalls). unfold exec.
  destruct (blocked L); [done|]. destruct a.
  - unfold start_call. pose proof (call_effect_start op env (state L)) as He.
    pose proof (call_configured_start op env (state L)) as [Hfr Hnew].
    destruct (call op env (state L)) as [s' r].
    unfold config_invariant. simpl in *.
    pose proof He as (Hg' & Hd' & _). split; [congruence|]. split; [congruence|].
    split.
    + apply (config_invariant_tasks m (state L) s' He Hg); [|done].
      intros g tl Hgt. eapply configured_groups; eauto.
    + intros j g tl Hj. apply lookup_app_Some in Hj as [Hj|[_ Hj]]; [eauto|].
      apply list_lookup_singleton_Some in Hj as [_ Hj].
      destruct r; simplify_eq/=. eapply configured_groups; eauto.
  - unfold run_call. destruct (calls L !! j) as [[fr| |]|] eqn:Hj; try done.
    pose proof (call_effect_resume fr env (state L)) as He.
    pose proof (call_configured_resume fr env (state L)) as [Hfr Hnew].
    destruct (call_resume fr env (state L)) as [s' r].
    unfold config_invariant. simpl in *.
    pose proof He as (Hg' & Hd' & _). split; [congruence|]. split; [congruence|].
    split.
    + apply (config_invariant_tasks m (state L) s' He Hg); [|done].
      intros g tl Hgt. specialize (Hnew g tl Hgt). subst fr. eauto.
    + intros j' g tl Hj'. destruct (decide (j' = j)) as [->|Hne].
      * rewrite list_lookup_insert_eq in Hj' by (by eapply lookup_lt_Some).
        destruct r; simplify_eq/=. specialize (Hfr g tl eq_refl). subst fr. eauto.
      * rewrite list_lookup_insert_ne in Hj' by done. eauto.
  - unfold run_task. destruct (tasks (state L) !! i) as [tk|] eqn:Hi;
      [|done].
    destruct (t_status tk) as [fr| |] eqn:Hst; try done.
    pose proof (session_frame (t_group tk) (t_track_list tk)
                  (if t_must_cancel tk then Throw else Send) fr env (state L))
      as (Ht & Hg' & Hd' & _).
    destruct (Htasks i tk Hi) as [Hconf Hcopy].
    pose proof (session_remaining (t_group tk) (t_track_list tk)
                  (if t_must_cancel tk then Throw else Send) fr env (state L)
                  (λ _, Hcopy fr Hst)) as Hrem.
    destruct (_play_track_list _ _ _ _ _ _) as [s' r].
    unfold config_invariant. simpl in *.
    split; [congruence|]. split; [congruence|]. split; [|done].
    intros j tkj Hj. rewrite Ht in Hj.
    destruct (decide (j = i)) as [->|Hne].
    + rewrite list_lookup_insert_eq in Hj by (by eapply lookup_lt_Some).
      simplify_eq/=. split; [done|]. intros fr' Hfr'. simpl in *.
      destruct r; simplify_eq/=. eauto.
    + rewrite list_lookup_insert_ne in Hj by done. eauto.
Qed.



(** ** The first run of a session and the polling loop *)

Lemma pass_order_perm env tl : pass_order env tl ≡ₚ TrackList.tracks tl.
Proof.
  unfold pass_order. destruct (TrackList.shuffle tl); [|done].
  apply random_shuffle_perm.
Qed.

Lemma pass_order_nil env tl : TrackList.tracks tl = [] → pass_order env tl = [].
Proof.
  intros Hnil. apply Permutation_nil_r. rewrite <- Hnil.
  apply pass_order_perm.
Qed.

Lemma run_wp_eq {F A} (m : coro F A) env s (x : State * result F A) :
  wp m env s (λ s' r, (s', r) = x) → m env s = x.
Proof. unfold wp. by destruct (m env s). Qed.

Lemma empty_pass g tl env s :
  TrackList.tracks tl = [] →
  _play_track_list g tl Send AtStart env s
  = (push (loading_message tl) s,
     if TrackList.loop tl then Spin else Val tt).
Proof.
  intros Hnil. pose proof (pass_order_nil env tl Hnil) as Hpass.
  unfold pass_order in Hpass.
  apply run_wp_eq.
  wp_code; wp_leaf; simplify_eq/=; try done.
  all: by destruct (TrackList.loop tl).
Qed.

Lemma blocked_run L script : blocked L = true → run L script = L.
Proof.
  intros Hb. induction script as [|ea script IH] using rev_ind; [done|].
  rewrite run_snoc, IH. unfold exec. by rewrite Hb.
Qed.

(** X9: a session on a track list without tracks and with [loop] true (the
    default) never reaches an await: [while True] spins. The event loop never
    gets control back, so nothing else runs any more, whatever is
    scheduled. *)
Theorem empty_loop_blocks (L : Loop) (env : Env) (i : nat) (tk : Task)
    (script : list (Env * Action)) :
  blocked L = false →
  tasks (state L) !! i = Some tk →
  t_status tk = Suspended AtStart → t_must_cancel tk = false →
  TrackList.tracks (t_track_list tk) = [] →
  TrackList.loop (t_track_list tk) = true →
  let L' := exec env (RunTask i) L in
  blocked L' = true
  ∧ trace (state L') = trace (state L) ++ [loading_message (t_track_list tk)]
  ∧ run L' script = L'.
Proof.
  intros Hb Hi Hst Hmc Hnil Hloop L'.
  assert (HL' : blocked L' = true
                ∧ trace (state L') = trace (state L) ++ [loading_message (t_track_list tk)]).
  { subst L'. unfold exec. rewrite Hb. unfold run_task.
    rewrite Hi, Hst, Hmc, (empty_pass _ _ _ _ Hnil), Hloop. simpl.
    split; [|done]. unfold blocked. simpl. apply existsb_exists.
    eexists. split.
    - apply list_elem_of_In, list_elem_of_lookup. exists i.
      apply list_lookup_insert_eq. by eapply lookup_lt_Some.
    - reflexivity. }
  destruct HL' as [Hb' Htr]. split; [done|]. split; [done|].
  by apply blocked_run.
Qed.

Lemma empty_loop_blocks_witness :
  let L' := exec (demo_env true 0) (RunTask 0%nat) minimal_requested in
  blocked L' = true
  ∧ run L' [(demo_env true 0, StartCall OpCancel);
            (demo_env true 0, RunTask 0%nat)] = L'.
Proof.
  intros L'.
  edestruct (λ tk, empty_loop_blocks minimal_requested (demo_env true 0) 0%nat tk
               [(demo_env true 0, StartCall OpCancel);
                (demo_env true 0, RunTask 0%nat)])
    as (Hb & _ & Hrun).
  - vm_compute. reflexivity.
  - vm_compute. reflexivity.
  - reflexivity.
  - reflexivity.
  - reflexivity.
  - reflexivity.
  - split; [exact Hb | exact Hrun].
Defined.

Section FirstTrack.
Variables (g : MusicGroup.t) (tl : TrackList.t) (env : Env) (s : State).
Variables (track : Track.t) (tracks : list Track.t).
Hypothesis Hpass : pass_order env tl = track :: tracks.

(** X10: with no directory on the track list, the group or the manager,
    the session gives up at its first track: it opens no file and creates no
    player, logs the error, runs the cleanup (stopping a handle left over,
    clearing [currently_playing] and [current_player]) and ends with
    [CancelledError]. *)
Theorem missing_directory_aborts :
  TrackList.directory tl = None → MusicGroup.directory g = None →
  directory (self s) = None →
  let out := _play_track_list g tl Send AtStart env s in
  out.2 = Raise CancelledError
  ∧ trace out.1
    = trace s ++ [loading_message tl; no_directory_message tl]
      ++ stop_handle (current_player (self s)) ++ [cancelled_message tl]
  ∧ self out.1 = cleared (self s)
  ∧ players out.1 = players s
  ∧ tasks out.1 = tasks s.
Proof.
  intros Htl Hg Hm. unfold pass_order in Hpass.
  assert (Hdir : _get_track_list_root_directory (self s) g tl = inl ValueError).
  { unfold _get_track_list_root_directory. by rewrite Htl, Hg, Hm. }
  apply (run_wp _ env s (λ s' r,
    r = Raise CancelledError
    ∧ trace s'
      = trace s ++ [loading_message tl; no_directory_message tl]
        ++ stop_handle (current_player (self s)) ++ [cancelled_message tl]
    ∧ self s' = cleared (self s) ∧ players s' = players s
    ∧ tasks s' = tasks s)).
  wp_code; wp_leaf; simplify_eq/=; try done.
  all: repeat split; try done; by rewrite <- !app_assoc.
Qed.
End FirstTrack.

Section FirstFile.
Variables (g : MusicGroup.t) (tl : TrackList.t) (env : Env) (s : State).
Variables (track : Track.t) (tracks : list Track.t) (root : string).
Hypothesis Hpass : pass_order env tl = track :: tracks.
Hypothesis Hroot : _get_track_list_root_directory (self s) g tl = inr root.

(** X11: when the file of the first track does not exist the session gives
    up before it creates a player: it logs the error, runs the cleanup and
    ends with [CancelledError]. *)
Theorem missing_file_aborts :
  isfile env (track_path root track) = false →
  let out := _play_track_list g tl Send AtStart env s in
  out.2 = Raise CancelledError
  ∧ trace out.1
    = trace s ++ [loading_message tl; missing_file_message (track_path root track)]
      ++ stop_handle (current_player (self s)) ++ [cancelled_message tl]
  ∧ self out.1 = cleared (self s)
  ∧ players out.1 = players s
  ∧ tasks out.1 = tasks s.
Proof.
  intros Hfile. unfold pass_order in Hpass. unfold track_path in *.
  assert (Hneg : negb (isfile env (path_join root (Track.file track))) = true)
    by (by rewrite Hfile).
  apply (run_wp _ env s (λ s' r,
    r = Raise CancelledError
    ∧ trace s'
      = trace s ++ [loading_message tl;
                    missing_file_message (path_join root (Track.file track))]
        ++ stop_handle (current_player (self s)) ++ [cancelled_message tl]
    ∧ self s' = cleared (self s) ∧ players s' = players s
    ∧ tasks s' = tasks s)).
  wp_code; wp_leaf; simplify_eq/=; try done.
  all: repeat split; try done; by rewrite <- !app_assoc.
Qed.

(** X12: when the engine refuses to play the first track ([play()] answers
    -1) the player that was just created, muted, is stopped by the cleanup;
    the session and the engine handle are cleared and the task ends with
    [CancelledError]. *)
Theorem failed_play_aborts :
  isfile env (track_path root track) = true → play_result env = -1 →
  let out := _play_track_list g tl Send AtStart env s in
  let p := players s in
  out.2 = Raise CancelledError
  ∧ trace out.1
    = trace s ++ [loading_message tl; NewPlayer p (track_path root track); SetVolume p 0;
                  Play p (-1); failed_play_message (track_path root track); Stop p;
                  cancelled_message tl]
  ∧ self out.1 = cleared (self s)
  ∧ players out.1 = S (players s)
  ∧ tasks out.1 = tasks s.
Proof.
  intros Hfile Hplay. unfold pass_order in Hpass. unfold track_path in *.
  assert (Hneg : negb (isfile env (path_join root (Track.file track))) = false)
    by (by rewrite Hfile).
  assert (Hfail : (play_result env =? -1) = true) by (by rewrite Hplay).
  apply (run_wp _ env s (λ s' r,
    r = Raise CancelledError
    ∧ trace s'
      = trace s ++ [loading_message tl;
                    NewPlayer (players s) (path_join root (Track.file track));
                    SetVolume (players s) 0; Play (players s) (-1);
                    failed_play_message (path_join root (Track.file track));
                    Stop (players s); cancelled_message tl]
    ∧ self s' = cleared (self s) ∧ players s' = S (players s)
    ∧ tasks s' = tasks s)).
  wp_code; wp_leaf; simplify_eq/=; try done.
  all: repeat split; try done; rewrite ?Hplay; by rewrite <- !app_assoc.
Qed.

End FirstFile.

Lemma missing_directory_aborts_witness :
  (_play_track_list demo_built_group bare_list Send AtStart (demo_env true 0)
     (state (boot demo_manager))).2 = Raise CancelledError.
Proof.
  eapply (missing_directory_aborts demo_built_group bare_list (demo_env true 0)
            (state (boot demo_manager))); reflexivity.
Defined.

Lemma missing_file_aborts_witness :
  (_play_track_list demo_built_group demo_list Send AtStart no_file_env
     (state (boot demo_manager))).2 = Raise CancelledError.
Proof.
  eapply (missing_file_aborts demo_built_group demo_list no_file_env
            (state (boot demo_manager))); reflexivity.
Defined.

Lemma failed_play_aborts_witness :
  (_play_track_list demo_built_group demo_list Send AtStart no_play_env
     (state (boot demo_manager))).2 = Raise CancelledError.
Proof.
  eapply (failed_play_aborts demo_built_group demo_list no_play_env
            (state (boot demo_manager))); reflexivity.
Defined.


(** X14: while the engine reports the track as playing, a poll asks for the
    position only if the track has an [end_at], calls [stop()] once the
    position has reached it, and in every case suspends again for
    [SLEEP_TIME] at the same track; nothing else changes. *)
Theorem poll_trims (g : MusicGroup.t) (tl : TrackList.t) (env : Env) (s : State)
    (tracks : list Track.t) (track : Track.t) (p : player) :
  current_player (self s) = Some p →
  is_playing env = true →
  let out := _play_track_list g tl Send (AtPoll tracks track) env s in
  out.2 = Await (AtPoll tracks track)
  ∧ trace out.1
    = trace s ++ IsPlaying p true :: trim p track (get_time env)
      ++ [Sleep SLEEP_TIME]
  ∧ self out.1 = self s
  ∧ players out.1 = players s
  ∧ tasks out.1 = tasks s.
Proof.
  intros Hp Hplaying.
  apply (run_wp _ env s (λ s' r,
    r = Await (AtPoll tracks track)
    ∧ trace s'
      = trace s ++ IsPlaying p true :: trim p track (get_time env)
        ++ [Sleep SLEEP_TIME]
    ∧ self s' = self s ∧ players s' = players s ∧ tasks s' = tasks s)).
  wp_code; wp_leaf; simplify_eq/=; try done.
  all: unfold trim.
  all: repeat split; try done;
    repeat match goal with
           | H : Track.end_at _ = _ |- _ => rewrite H
           | H : (_ <=? _) = _ |- _ => rewrite H
           end; rewrite ?Hplaying; by rewrite <- ?app_assoc.
Qed.

Lemma poll_trims_witness :
  let track := {| Track.file := "a.mp3"; Track.start_at := None;
                  Track.end_at := Some 65000 |} in
  trace (_play_track_list demo_built_group demo_list Send (AtPoll [] track)
           {| isfile := λ _, true; play_result := 0; is_playing := true;
              get_time := 65010; audio_get_volume := 50;
              randbelow := λ _, 0%nat |} demo_playing).1
  = [IsPlaying 0%nat true; GetTime 0%nat 65010; Stop 0%nat; Sleep SLEEP_TIME].
Proof.
  intros track.
  edestruct (poll_trims demo_built_group demo_list
               {| isfile := λ _, true; play_result := 0; is_playing := true;
                  get_time := 65010; audio_get_volume := 50;
                  randbelow := λ _, 0%nat |} demo_playing [] track 0%nat)
    as (_ & Htrace & _); [reflexivity | reflexivity |].
  exact Htrace.
Defined.
